(** * Job board backend: validation schemas and route handlers

    A shallow embedding of the three TypeScript sources of the job board API:
    - [lib/schema/validation]: the zod schemas [jobSchema] and [approveJobSchema];
    - [app/api/jobs/route.ts]: the collection handlers [GET] and [POST];
    - [app/api/jobs/[id]/route.ts]: the item handlers [GET], [PUT] and [DELETE].

    JavaScript values are an inductive type, zod schemas are terms of a small
    schema language interpreted by [_parse], and the handlers are written in a
    state-and-exception monad over a world made of the remote [jobs] table, the
    outcome of each network round trip, the clock and a log of the calls
    issued to the store. What the handlers print on the console is left out. *)

From Stdlib Require Import String Ascii List ZArith QArith Bool.
Import ListNotations.
Open Scope string_scope.
Open Scope list_scope.
Set Warnings "-register-all".

(** ** JavaScript values *)

(** A JavaScript number that [JSON.parse] can produce: a finite double (kept as
    the rational it denotes) or an infinity (from an overflowing literal). [NaN]
    has no JSON spelling. *)
Inductive number : Type :=
| Fin (q : Q)
| PosInf
| NegInf.

(** The values that flow through the handlers. [Undefined] is what a property
    access yields on an absent key. An object keeps its properties in insertion
    order. *)
Inductive js : Type :=
| Undefined
| Null
| Bool (b : bool)
| Num (n : number)
| Str (s : string)
| Arr (items : list js)
| Obj (props : list (string * js)).

Definition object := list (string * js).

(** [o[key]]: the first binding of [key], [Undefined] when there is none. *)
Fixpoint get (key : string) (o : object) : js :=
  match o with
  | [] => Undefined
  | (k, v) :: rest => if String.eqb key k then v else get key rest
  end.

(** [key in o]. *)
Fixpoint has_key (key : string) (o : object) : bool :=
  match o with
  | [] => false
  | (k, _) :: rest => String.eqb key k || has_key key rest
  end.

(** Overwrites every binding of [key] in place. *)
Fixpoint overwrite (key : string) (v : js) (o : object) : object :=
  match o with
  | [] => []
  | (k, x) :: rest =>
      (k, if String.eqb key k then v else x) :: overwrite key v rest
  end.

(** [{ ...o, key: v }]: an existing key keeps its position and takes the new
    value, a new key goes last. *)
Definition set (key : string) (v : js) (o : object) : object :=
  if has_key key o then overwrite key v o else o ++ [(key, v)].

(** [{ ...o, ...patch }]. *)
Definition spread (o patch : object) : object :=
  fold_left (fun acc kv => set (fst kv) (snd kv) acc) patch o.

Definition is_undefined (v : js) : bool :=
  match v with Undefined => true | _ => false end.

(** What the receiver of [JSON.stringify(v)] reads: a number that is not
    finite has become [null], a property whose value is [undefined] is
    gone, an [undefined] item of an array has become [null]. *)
Fixpoint to_json (v : js) : js :=
  match v with
  | Num (Fin _) => v
  | Num _ => Null
  | Arr items =>
      Arr (map (fun x => match to_json x with
                         | Undefined => Null
                         | y => y
                         end) items)
  | Obj props =>
      Obj (flat_map (fun kv => match to_json (snd kv) with
                               | Undefined => []
                               | y => [(fst kv, y)]
                               end) props)
  | _ => v
  end.

(** The properties of [to_json (Obj o)]. *)
Definition json_object (o : object) : object :=
  flat_map (fun kv => match to_json (snd kv) with
                      | Undefined => []
                      | y => [(fst kv, y)]
                      end) o.

(** [a < b] and [a <= b] against a finite bound. *)
Definition number_lt (n : number) (bound : Q) : bool :=
  match n with
  | Fin q => negb (Qle_bool bound q)
  | PosInf => false
  | NegInf => true
  end.

Definition number_le (n : number) (bound : Q) : bool :=
  match n with
  | Fin q => Qle_bool q bound
  | PosInf => false
  | NegInf => true
  end.

(** The integer a number denotes, when it denotes one. *)
Definition number_int (n : number) : option Z :=
  match n with
  | Fin q =>
      if Z.eqb (Qnum q mod Zpos (Qden q)) 0
      then Some (Qnum q / Zpos (Qden q))%Z
      else None
  | _ => None
  end.

Definition int (z : Z) : js := Num (Fin (inject_Z z)).

(** ** The platform

    Three functions of the runtime and of the store that the sources rely on
    and do not define: zod's email pattern, the [URL] constructor (zod's [url]
    check succeeds when [new URL(s)] does not throw), and the store's reading
    of a textual identifier as a value of the integer [id] column. *)
Record Env : Type := {
  emailRegex_test : string -> bool;
  URL_parses : string -> bool;
  int_of_text : string -> option Z
}.

(** ** zod *)

Module Zod.

(** [getParsedType] on the values above. *)
Inductive ZodParsedType : Type :=
| t_undefined | t_null | t_boolean | t_number | t_string | t_array | t_object.

Definition getParsedType (data : js) : ZodParsedType :=
  match data with
  | Undefined => t_undefined
  | Null => t_null
  | Bool _ => t_boolean
  | Num _ => t_number
  | Str _ => t_string
  | Arr _ => t_array
  | Obj _ => t_object
  end.

Inductive StringValidation : Type := v_email | v_url.

Inductive ZodIssueCode : Type :=
| invalid_type (expected received : ZodParsedType)
| invalid_literal (expected : js)
| too_small (type : ZodParsedType) (minimum : Q) (inclusive : bool)
| invalid_string (validation : StringValidation).

(** One entry of [ZodError.errors]. The message text, which zod derives from
    the code, is left out. *)
Record ZodIssue : Type := {
  code : ZodIssueCode;
  path : list string
}.

Inductive ZodStringCheck : Type :=
| s_min (value : nat)
| s_email
| s_url.

Inductive ZodNumberCheck : Type :=
| n_min (value : Q) (inclusive : bool).

(** The schema constructors the sources use. An object schema is in zod's
    default mode: keys outside the shape are stripped, not refused. *)
Inductive ZodType : Type :=
| ZodString (checks : list ZodStringCheck)
| ZodNumber (checks : list ZodNumberCheck)
| ZodBoolean
| ZodLiteral (value : bool)
| ZodOptional (innerType : ZodType)
| ZodObject (shape : list (string * ZodType)).

(** The builders, named as in the sources. *)
Module z.
Definition string : ZodType := ZodString [].
Definition number : ZodType := ZodNumber [].
Definition boolean : ZodType := ZodBoolean.
Definition literal (value : bool) : ZodType := ZodLiteral value.
Definition object (shape : list (String.string * ZodType)) : ZodType :=
  ZodObject shape.
Definition min (n : nat) (t : ZodType) : ZodType :=
  match t with
  | ZodString checks => ZodString (checks ++ [s_min n])
  | _ => t
  end.
Definition email (t : ZodType) : ZodType :=
  match t with
  | ZodString checks => ZodString (checks ++ [s_email])
  | _ => t
  end.
Definition url (t : ZodType) : ZodType :=
  match t with
  | ZodString checks => ZodString (checks ++ [s_url])
  | _ => t
  end.
Definition nonnegative (t : ZodType) : ZodType :=
  match t with
  | ZodNumber checks => ZodNumber (checks ++ [n_min 0 true])
  | _ => t
  end.
Definition optional (t : ZodType) : ZodType := ZodOptional t.
(** [schema.shape] and [schema.omit({ key: true, ... })]. *)
Definition shape (t : ZodType) : list (String.string * ZodType) :=
  match t with
  | ZodObject sh => sh
  | _ => []
  end.
Definition omit (keys : list String.string) (t : ZodType) : ZodType :=
  match t with
  | ZodObject sh =>
      ZodObject
        (filter (fun kt => negb (existsb (String.eqb (fst kt)) keys)) sh)
  | _ => t
  end.
End z.

Definition string_check (E : Env) (p : list string) (s : string)
    (c : ZodStringCheck) : list ZodIssue :=
  match c with
  | s_min value =>
      if Nat.ltb (String.length s) value
      then [{| code := too_small t_string (inject_Z (Z.of_nat value)) true;
               path := p |}]
      else []
  | s_email =>
      if emailRegex_test E s then []
      else [{| code := invalid_string v_email; path := p |}]
  | s_url =>
      if URL_parses E s then []
      else [{| code := invalid_string v_url; path := p |}]
  end.

Definition number_check (p : list string) (n : number)
    (c : ZodNumberCheck) : list ZodIssue :=
  match c with
  | n_min value inclusive =>
      if (if inclusive then number_lt n value else number_le n value)
      then [{| code := too_small t_number value inclusive; path := p |}]
      else []
  end.

Definition wrong_type (p : list string) (expected : ZodParsedType)
    (data : js) : list ZodIssue * js :=
  ([{| code := invalid_type expected (getParsedType data); path := p |}],
   Undefined).

(** [schema._parse]: the issues added to the context and the parsed value
    (meaningful when no issue was added). The object case visits the shape's
    keys in order, reads [data[key]], and keeps in the output the keys whose
    parsed value is defined or that the input has. *)
Fixpoint _parse (E : Env) (t : ZodType) (p : list string) (data : js)
    {struct t} : list ZodIssue * js :=
  match t with
  | ZodString checks =>
      match data with
      | Str s => (flat_map (string_check E p s) checks, data)
      | _ => wrong_type p t_string data
      end
  | ZodNumber checks =>
      match data with
      | Num n => (flat_map (number_check p n) checks, data)
      | _ => wrong_type p t_number data
      end
  | ZodBoolean =>
      match data with
      | Bool _ => ([], data)
      | _ => wrong_type p t_boolean data
      end
  | ZodLiteral value =>
      match data with
      | Bool b =>
          if Bool.eqb b value then ([], data)
          else ([{| code := invalid_literal (Bool value); path := p |}],
                Undefined)
      | _ => ([{| code := invalid_literal (Bool value); path := p |}],
              Undefined)
      end
  | ZodOptional innerType =>
      match data with
      | Undefined => ([], Undefined)
      | _ => _parse E innerType p data
      end
  | ZodObject shape =>
      match data with
      | Obj props =>
          let fix pairs (sh : list (string * ZodType))
              : list ZodIssue * object :=
            match sh with
            | [] => ([], [])
            | (key, keyValidator) :: rest =>
                let r := _parse E keyValidator (p ++ [key]) (get key props) in
                let rs := pairs rest in
                (fst r ++ fst rs,
                 if negb (is_undefined (snd r)) || has_key key props
                 then (key, snd r) :: snd rs
                 else snd rs)
            end in
          let r := pairs shape in
          (fst r, Obj (snd r))
      | _ => wrong_type p t_object data
      end
  end.

Inductive SafeParseReturn : Type :=
| Success (data : js)
| Failure (errors : list ZodIssue).

(** [schema.safeParse(data)]: a success exactly when no issue was added. *)
Definition safeParse (E : Env) (t : ZodType) (data : js) : SafeParseReturn :=
  match _parse E t [] data with
  | ([], v) => Success v
  | (errors, _) => Failure errors
  end.

End Zod.

(** ** lib/schema/validation *)

Module Validation.
Import Zod.

Definition jobSchema : ZodType :=
  z.object [
    ("id", z.optional z.number);
    ("slug", z.min 1 z.string);
    ("title", z.min 1 z.string);
    ("type", z.min 1 z.string);
    ("location_type", z.min 1 z.string);
    ("location", z.optional z.string);
    ("description", z.optional z.string);
    ("salary", z.nonnegative z.number);
    ("company_name", z.min 1 z.string);
    ("application_email", z.optional (z.email z.string));
    ("application_url", z.optional (z.url z.string));
    ("company_logo_url", z.optional (z.url z.string));
    ("approved", z.boolean);
    ("created_at", z.string);
    ("updated_at", z.string)
  ].

Definition approveJobSchema : ZodType :=
  z.object [
    ("approved", z.literal true)
  ].

End Validation.

(** ** The world the handlers run in *)

(** A call that reached the persistence client, as the handler issued it. *)
Inductive StoreCall : Type :=
| c_select_all
| c_select_single (id : string)
| c_insert (values : js)
| c_update (values : object) (id : string)
| c_delete (id : string).

(** The remote [jobs] table: its rows and the next value of the [id] sequence. *)
Record Db : Type := {
  rows : list object;
  next_id : Z
}.

(** [net] gives the fate of the coming round trips, in order: [None] when the
    request is delivered and answered, [Some message] when the transport or the
    backend fails with that message; past its end every round trip is
    delivered. [clock] is the current time as [toISOString] renders it. [calls]
    logs the calls issued so far. *)
Record World : Type := {
  db : Db;
  net : list (option string);
  clock : string;
  calls : list StoreCall
}.

Inductive result (A : Type) : Type :=
| Ok (a : A)
| Thrown (e : string).
Arguments Ok {A} a.
Arguments Thrown {A} e.

(** Handlers are computations that read and change the world and may throw. *)
Definition M (A : Type) : Type := World -> result A * World.

Definition ret {A} (a : A) : M A := fun w => (Ok a, w).

Definition bind {A B} (m : M A) (k : A -> M B) : M B :=
  fun w =>
    match m w with
    | (Ok a, w') => k a w'
    | (Thrown e, w') => (Thrown e, w')
    end.

Definition throw {A} (e : string) : M A := fun w => (Thrown e, w).

(** [try { m } catch (err) { handler }]. *)
Definition try_catch {A} (m : M A) (handler : string -> M A) : M A :=
  fun w =>
    match m w with
    | (Ok a, w') => (Ok a, w')
    | (Thrown e, w') => handler e w'
    end.

Notation "x <- m ;; k" := (bind m (fun x => k))
  (at level 61, m at next level, right associativity).

(** [new Date().toISOString()]. *)
Definition Date_toISOString : M string := fun w => (Ok (clock w), w).

(** ** The persistence client *)

Module Supabase.

(** What awaiting a query yields: [data] ([Null] when there is none) and
    [error] (its message), never an exception. *)
Record PostgrestResponse : Type := {
  data : js;
  error : option string
}.

Definition answer (v : js) : PostgrestResponse :=
  {| data := v; error := None |}.

Definition failure (message : string) : PostgrestResponse :=
  {| data := Null; error := Some message |}.

(** The filter [.eq("id", id)] on a row, once the store has read the textual
    identifier as the integer [n]. *)
Definition eq_id (n : Z) (row : object) : bool :=
  match get "id" row with
  | Num x =>
      match number_int x with
      | Some m => Z.eqb m n
      | None => false
      end
  | _ => false
  end.

(** The columns of [jobs] besides [id]. *)
Definition columns : list string :=
  ["slug"; "title"; "type"; "location_type"; "location"; "description";
   "salary"; "company_name"; "application_email"; "application_url";
   "company_logo_url"; "approved"; "created_at"; "updated_at"].

Definition nullable (v : js) : js :=
  match v with Undefined => Null | _ => v end.

Definition new_row (n : Z) (values : object) : object :=
  ("id", int n) :: map (fun c => (c, nullable (get c values))) columns.

(** The store, as the [supabase-js] client presents it to the handlers. The
    client and the hosted table are third-party: the repository's
    [lib/supabase/supabaseService] only constructs the client. Each call is
    one round trip that yields a result or an error and is never retried.
    [id] is an integer, unique, drawn from a sequence when the caller gives
    none. [.single()] reports an error unless exactly one row is selected.
    An update or a delete whose filter selects no row changes nothing and
    reports no error (the spec's section 4.4: the delete may be a no-op).
    The client sends the body of an insert or an update as JSON, so the
    store works on [to_json] of the handler's object. An insert fills the
    columns the caller left out with [Null]. *)
Definition run (E : Env) (call : StoreCall) (d : Db) : PostgrestResponse * Db :=
  match call with
  | c_select_all => (answer (Arr (map Obj (rows d))), d)
  | c_select_single id =>
      match int_of_text E id with
      | None => (failure "invalid input syntax for type bigint", d)
      | Some n =>
          match filter (eq_id n) (rows d) with
          | [row] => (answer (Obj row), d)
          | _ =>
              (failure "JSON object requested, multiple (or no) rows returned",
               d)
          end
      end
  | c_insert v =>
      match to_json v with
      | Obj values =>
          match get "id" values with
          | Undefined =>
              let n := next_id d in
              if existsb (eq_id n) (rows d)
              then (failure "duplicate key value violates unique constraint",
                    {| rows := rows d; next_id := n + 1 |})
              else (answer Null,
                    {| rows := rows d ++ [new_row n values];
                       next_id := n + 1 |})
          | Num x =>
              match number_int x with
              | Some n =>
                  if existsb (eq_id n) (rows d)
                  then
                    (failure "duplicate key value violates unique constraint",
                     d)
                  else (answer Null,
                        {| rows := rows d ++ [new_row n values];
                           next_id := next_id d |})
              | None => (failure "invalid input syntax for type bigint", d)
              end
          | _ => (failure "invalid input syntax for type bigint", d)
          end
      | _ => (failure "invalid request body", d)
      end
  | c_update values id =>
      match int_of_text E id with
      | None => (failure "invalid input syntax for type bigint", d)
      | Some n =>
          (answer Null,
           {| rows := map (fun row => if eq_id n row
                                      then spread row (json_object values)
                                      else row) (rows d);
              next_id := next_id d |})
      end
  | c_delete id =>
      match int_of_text E id with
      | None => (failure "invalid input syntax for type bigint", d)
      | Some n =>
          (answer Null,
           {| rows := filter (fun row => negb (eq_id n row)) (rows d);
              next_id := next_id d |})
      end
  end.

(** One awaited query: the call is logged, the round trip consumes one entry
    of [net], and the store runs the call only when the round trip succeeds. *)
Definition query (E : Env) (call : StoreCall) : M PostgrestResponse :=
  fun w =>
    match hd None (net w) with
    | Some message =>
        (Ok (failure message),
         {| db := db w; net := tl (net w); clock := clock w;
            calls := calls w ++ [call] |})
    | None =>
        (Ok (fst (run E call (db w))),
         {| db := snd (run E call (db w)); net := tl (net w);
            clock := clock w; calls := calls w ++ [call] |})
    end.

End Supabase.

(** ** next/server *)

Record Response : Type := {
  status : nat;
  body : js
}.

(** [NextResponse.json(body, { status })]. *)
Definition NextResponse_json (body : js) (status : nat) : Response :=
  {| status := status; body := body |}.

(** The body of the incoming request: [req.json()] rejects on a body that is
    not JSON and resolves to the parsed value otherwise. *)
Inductive RequestBody : Type :=
| not_json
| json (v : js).

Definition req_json (b : RequestBody) : M js :=
  match b with
  | not_json => throw "SyntaxError"
  | json v => ret v
  end.

(** JavaScript's [!v]. *)
Definition falsy (v : js) : bool :=
  match v with
  | Undefined | Null => true
  | Bool b => negb b
  | Num (Fin q) => Qeq_bool q 0
  | Num _ => false
  | Str s => String.eqb s ""
  | Arr _ | Obj _ => false
  end.

Definition is_some {A} (o : option A) : bool :=
  match o with Some _ => true | None => false end.

(** [{ ...v, ...patch }] on a value: only an object contributes properties. *)
Definition spread_js (v : js) (patch : object) : object :=
  match v with
  | Obj o => spread o patch
  | _ => spread [] patch
  end.

(** The JSON rendering of [ZodError.errors]. *)
Module ZodJson.
Import Zod.

Definition type_name (t : ZodParsedType) : string :=
  match t with
  | t_undefined => "undefined"
  | t_null => "null"
  | t_boolean => "boolean"
  | t_number => "number"
  | t_string => "string"
  | t_array => "array"
  | t_object => "object"
  end.

Definition code_js (c : ZodIssueCode) : object :=
  match c with
  | invalid_type expected received =>
      [("code", Str "invalid_type");
       ("expected", Str (type_name expected));
       ("received", Str (type_name received))]
  | invalid_literal expected =>
      [("code", Str "invalid_literal"); ("expected", expected)]
  | too_small type minimum inclusive =>
      [("code", Str "too_small");
       ("minimum", Num (Fin minimum));
       ("type", Str (type_name type));
       ("inclusive", Bool inclusive)]
  | invalid_string v_email =>
      [("validation", Str "email"); ("code", Str "invalid_string")]
  | invalid_string v_url =>
      [("validation", Str "url"); ("code", Str "invalid_string")]
  end.

Definition issue_js (i : ZodIssue) : js :=
  Obj (code_js (code i) ++ [("path", Arr (map Str (path i)))]).

Definition errors_js (errors : list ZodIssue) : js :=
  Arr (map issue_js errors).

End ZodJson.

(** ** app/api/jobs/route.ts *)

Module Jobs.
Import Zod Validation Supabase ZodJson.

Definition GET (E : Env) : M Response :=
  try_catch
    (r <- query E c_select_all ;;
     match error r with
     | Some message =>
         ret (NextResponse_json (Obj [("error", Str message)]) 500)
     | None =>
         ret (NextResponse_json (Obj [("jobs", data r)]) 200)
     end)
    (fun err =>
       ret (NextResponse_json (Obj [("error", Str "Failed to fetch jobs")]) 500)).

Definition POST (E : Env) (req : RequestBody) : M Response :=
  try_catch
    (body <- req_json req ;;
     match safeParse E jobSchema body with
     | Failure errors =>
         ret (NextResponse_json (Obj [("error", errors_js errors)]) 400)
     | Success validatedJob =>
         r <- query E (c_insert validatedJob) ;;
         match error r with
         | Some message =>
             ret (NextResponse_json (Obj [("error", Str message)]) 500)
         | None =>
             ret (NextResponse_json (Str "job created successfully") 201)
         end
     end)
    (fun err =>
       ret (NextResponse_json
              (Obj [("error", Str "Failed to create job")]) 500)).

End Jobs.

(** ** app/api/jobs/[id]/route.ts *)

Module JobById.
Import Zod Validation Supabase ZodJson.

Definition GET (E : Env) (id : string) : M Response :=
  r <- query E (c_select_single id) ;;
  if is_some (error r) || falsy (data r)
  then ret (NextResponse_json (Obj [("error", Str "Job not found")]) 404)
  else ret (NextResponse_json (data r) 200).

Definition PUT (E : Env) (req : RequestBody) (id : string) : M Response :=
  if String.eqb id ""
  then ret (NextResponse_json (Obj [("error", Str "ID is required")]) 400)
  else
    body <- req_json req ;;
    match safeParse E approveJobSchema body with
    | Failure errors =>
        ret (NextResponse_json (Obj [("error", errors_js errors)]) 400)
    | Success _ =>
        try_catch
          (r <- query E (c_select_single id) ;;
           let existingJob := data r in
           if is_some (error r) || falsy existingJob
           then
             ret (NextResponse_json
                    (Obj [("error",
                           Str ("Job with ID " ++ id ++ " not found")%string)])
                    404)
           else
             now <- Date_toISOString ;;
             let updatedJob :=
               spread_js existingJob
                 [("approved", Bool true); ("updated_at", Str now)] in
             u <- query E
                    (c_update [("approved", Bool true);
                               ("updated_at", get "updated_at" updatedJob)]
                              id) ;;
             match error u with
             | Some _ =>
                 ret (NextResponse_json
                        (Obj [("error", Str "Failed to approve job")]) 500)
             | None =>
                 ret (NextResponse_json
                        (Obj [("message", Str "Job approved successfully");
                              ("job", Obj updatedJob)])
                        200)
             end)
          (fun err =>
             ret (NextResponse_json
                    (Obj [("error", Str "Internal server error")]) 500))
    end.

Definition DELETE (E : Env) (id : string) : M Response :=
  r <- query E (c_delete id) ;;
  match error r with
  | Some _ =>
      ret (NextResponse_json (Obj [("error", Str "Job not found")]) 404)
  | None =>
      ret (NextResponse_json
             (Obj [("message", Str "Job deleted successfully")]) 200)
  end.

End JobById.

(** ** The API as a transition system *)

Inductive Operation : Type :=
| List
| Create (req : RequestBody)
| Get (id : string)
| Approve (req : RequestBody) (id : string)
| Delete (id : string).

Definition handle (E : Env) (op : Operation) : M Response :=
  match op with
  | List => Jobs.GET E
  | Create req => Jobs.POST E req
  | Get id => JobById.GET E id
  | Approve req id => JobById.PUT E req id
  | Delete id => JobById.DELETE E id
  end.

(** ** A concrete platform and sample data, to run the handlers on *)

Fixpoint digits (s : string) (acc : Z) : option Z :=
  match s with
  | EmptyString => Some acc
  | String c rest =>
      let n := nat_of_ascii c in
      if (48 <=? n)%nat && (n <=? 57)%nat
      then digits rest (10 * acc + Z.of_nat (n - 48))
      else None
  end.

(** Reads a non-empty string of decimal digits. *)
Definition decimal (s : string) : option Z :=
  match s with
  | EmptyString => None
  | _ => digits s 0
  end.

Fixpoint contains_char (c : ascii) (s : string) : bool :=
  match s with
  | EmptyString => false
  | String x rest => Ascii.eqb x c || contains_char c rest
  end.

(** A stand-in platform: identifiers are decimal numerals, an email has an
    [@], a URL has a [:]. The sample requests below carry no email and no URL. *)
Definition sample_env : Env := {|
  emailRegex_test := contains_char "@"%char;
  URL_parses := contains_char ":"%char;
  int_of_text := decimal
|}.

(** The request body of the spec's concrete scenario, with [approved] left
    open. *)
Definition sample_job (approved : bool) : object :=
  [("slug", Str "eng-1"); ("title", Str "Engineer"); ("type", Str "full-time");
   ("location_type", Str "remote"); ("salary", Num (Fin (90000 # 1)));
   ("company_name", Str "Acme"); ("approved", Bool approved);
   ("created_at", Str "2024-01-01T00:00:00Z");
   ("updated_at", Str "2024-01-01T00:00:00Z")].

Definition empty_world : World := {|
  db := {| rows := []; next_id := 1 |};
  net := [];
  clock := "2024-06-01T12:00:00.000Z";
  calls := []
|}.

(** The world after the sample job was created unapproved in [empty_world]. *)
Definition one_job_world : World :=
  snd (Jobs.POST sample_env (json (Obj (sample_job false))) empty_world).

(** ** Vocabulary of the statements *)

Import Zod Validation Supabase ZodJson.

(** The issues and the parsed value of one key of a shape, for an object
    parsed at path [p]; whether the key is kept in the output; the output. *)
Definition field_issues (E : Env) (p : list string) (props : object)
    (kt : string * ZodType) : list ZodIssue :=
  fst (_parse E (snd kt) (p ++ [fst kt]) (get (fst kt) props)).

Definition field_value (E : Env) (p : list string) (props : object)
    (kt : string * ZodType) : js :=
  snd (_parse E (snd kt) (p ++ [fst kt]) (get (fst kt) props)).

Definition kept (E : Env) (p : list string) (props : object)
    (kt : string * ZodType) : bool :=
  negb (is_undefined (field_value E p props kt)) || has_key (fst kt) props.

Definition output (E : Env) (p : list string) (props : object)
    (shape : list (string * ZodType)) : object :=
  map (fun kt => (fst kt, field_value E p props kt))
    (filter (kept E p props) shape).

Definition job_shape : list (string * ZodType) :=
  Eval cbv in z.shape jobSchema.

(** The keys [jobSchema] requires. *)
Definition required_keys : list string :=
  ["slug"; "title"; "type"; "location_type"; "salary"; "company_name";
   "approved"; "created_at"; "updated_at"].

(** The spec's scenario body with a negative salary and without its slug. *)
Definition bad_job : object :=
  [("title", Str "Engineer"); ("type", Str "full-time");
   ("location_type", Str "remote"); ("salary", Num (Fin (-1 # 1)));
   ("company_name", Str "Acme"); ("approved", Bool false);
   ("created_at", Str "2024-01-01T00:00:00Z");
   ("updated_at", Str "2024-01-01T00:00:00Z")].

Definition bad_job_errors : list ZodIssue :=
  [{| code := invalid_type t_string t_undefined; path := ["slug"] |};
   {| code := too_small t_number 0 true; path := ["salary"] |}].

(** The creation schema without its two timestamp keys: what "valid in all
    other fields" means. *)
Definition otherFieldsSchema : ZodType :=
  z.omit ["created_at"; "updated_at"] jobSchema.

Definition with_timestamps (created_at updated_at : string) (props : object)
    : object :=
  set "created_at" (Str created_at) (set "updated_at" (Str updated_at) props).

(** The row select-by-id finds: the only row whose [id] is the identifier. *)
Definition find_row (E : Env) (id : string) (d : Db) : option object :=
  match int_of_text E id with
  | Some n =>
      match filter (eq_id n) (rows d) with
      | [row] => Some row
      | _ => None
      end
  | None => None
  end.

(** The view [PUT] builds and the columns it writes. *)
Definition approved_view (now : string) (row : object) : object :=
  set "updated_at" (Str now) (set "approved" (Bool true) row).

Definition approval (now : string) : object :=
  [("approved", Bool true); ("updated_at", Str now)].

(** The table after the approval of the rows whose [id] is [n]. *)
Definition approve_rows (n : Z) (now : string) (d : Db) : Db :=
  {| rows := map (fun row => if eq_id n row then approved_view now row
                             else row) (rows d);
     next_id := next_id d |}.

(** The world after the select-by-id of an approve request, and after its
    update left the table as [d]; the 404 answer of an approve request. *)
Definition after_select (id : string) (w : World) : World :=
  {| db := db w; net := tl (net w); clock := clock w;
     calls := calls w ++ [c_select_single id] |}.

Definition after_update (id : string) (w : World) (d : Db) : World :=
  {| db := d; net := tl (tl (net w)); clock := clock w;
     calls := (calls w ++ [c_select_single id])
                ++ [c_update (approval (clock w)) id] |}.

Definition not_found (id : string) : Response :=
  {| status := 404;
     body := Obj [("error",
                   Str ("Job with ID " ++ id ++ " not found")%string)] |}.

(** Whether the filter [.eq("id", id)] selects a row. *)
Definition matches (E : Env) (id : string) (row : object) : bool :=
  match int_of_text E id with
  | Some n => eq_id n row
  | None => false
  end.

(** The scenario body with the salary that the literal [1e999] parses to. *)
Definition overflowing_salary_job : object :=
  set "salary" (Num PosInf) (sample_job false).

(** The only row of [one_job_world]. *)
Definition sample_row : object :=
  ("id", int 1)
  :: map (fun c => (c, nullable (get c (sample_job false)))) columns.

Definition set_clock (now : string) (w : World) : World :=
  {| db := db w; net := net w; clock := now; calls := calls w |}.

(** The statuses each operation answers with. *)
Definition statuses (op : Operation) : list nat :=
  match op with
  | List => [200; 500]
  | Create _ => [201; 400; 500]
  | Get _ => [200; 404]
  | Approve _ _ => [200; 400; 404; 500]
  | Delete _ => [200; 404]
  end%nat.

(** The store calls an operation has issued, in order, when it answers with
    a given status. *)
Definition issued_for (E : Env) (op : Operation) (now : string)
    (answer : nat) (issued : list StoreCall) : Prop :=
  match op with
  | List => issued = [c_select_all]
  | Create req =>
      if Nat.eqb answer 400 then issued = []
      else if Nat.eqb answer 201
      then exists v validatedJob,
             req = json v
             /\ safeParse E jobSchema v = Success validatedJob
             /\ issued = [c_insert validatedJob]
      else (req = not_json /\ issued = [])
           \/ (exists v validatedJob,
                 req = json v
                 /\ safeParse E jobSchema v = Success validatedJob
                 /\ issued = [c_insert validatedJob])
  | Get id => issued = [c_select_single id]
  | Approve _ id =>
      if Nat.eqb answer 400 then issued = []
      else if Nat.eqb answer 404 then issued = [c_select_single id]
      else issued = [c_select_single id; c_update (approval now) id]
  | Delete id => issued = [c_delete id]
  end.

(** The conditions of the creation schema, key by key. *)
Definition absent_or (ok : js -> bool) (v : js) : bool :=
  match v with
  | Undefined => true
  | _ => ok v
  end.

Definition is_string (v : js) : bool :=
  match v with Str _ => true | _ => false end.

Definition is_number (v : js) : bool :=
  match v with Num _ => true | _ => false end.

Definition is_boolean (v : js) : bool :=
  match v with Bool _ => true | _ => false end.

Definition nonempty_string (v : js) : bool :=
  match v with
  | Str s => negb (String.eqb s "")
  | _ => false
  end.

Definition string_where (test : string -> bool) (v : js) : bool :=
  match v with
  | Str s => test s
  | _ => false
  end.

Definition nonnegative_number (v : js) : bool :=
  match v with
  | Num (Fin q) => Qle_bool 0 q
  | Num PosInf => true
  | _ => false
  end.

(** The condition on each key of a create payload. *)
Definition job_conditions (E : Env) : list (string * (js -> bool)) :=
  [("id", absent_or is_number);
   ("slug", nonempty_string);
   ("title", nonempty_string);
   ("type", nonempty_string);
   ("location_type", nonempty_string);
   ("location", absent_or is_string);
   ("description", absent_or is_string);
   ("salary", nonnegative_number);
   ("company_name", nonempty_string);
   ("application_email", absent_or (string_where (emailRegex_test E)));
   ("application_url", absent_or (string_where (URL_parses E)));
   ("company_logo_url", absent_or (string_where (URL_parses E)));
   ("approved", is_boolean);
   ("created_at", is_string);
   ("updated_at", is_string)].

Definition job_valid (E : Env) (props : object) : bool :=
  forallb (fun kc => snd kc (get (fst kc) props)) (job_conditions E).

(** A schema accepts, at any path, exactly the values that satisfy [ok]. *)
Definition accepts (E : Env) (t : ZodType) (ok : js -> bool) : Prop :=
  forall p v, fst (_parse E t p v) = [] <-> ok v = true.

(** The keys of the creation schema. *)
Definition job_keys : list string := map fst job_shape.

(** A schema built without [z.object]. *)
Fixpoint flat (t : ZodType) : bool :=
  match t with
  | ZodObject _ => false
  | ZodOptional innerType => flat innerType
  | _ => true
  end.

(** The world after a single store call that left the table as [d]. *)
Definition after_call (call : StoreCall) (w : World) (d : Db) : World :=
  {| db := d; net := tl (net w); clock := clock w;
     calls := calls w ++ [call] |}.

(** * Properties *)

(** ** Objects *)

Lemma eqb_neq_false (a b : string) : a <> b -> String.eqb a b = false.
Proof. intros H. now apply String.eqb_neq. Qed.

Lemma get_has_key (key : string) (o : object) :
  has_key key o = false -> get key o = Undefined.
Proof.
  induction o as [|[k v] rest IH]; simpl; [reflexivity|].
  destruct (String.eqb key k); simpl; [discriminate | exact IH].
Qed.

Lemma get_overwrite_same (key : string) (v : js) (o : object) :
  has_key key o = true -> get key (overwrite key v o) = v.
Proof.
  induction o as [|[k x] rest IH]; simpl; [discriminate|].
  destruct (String.eqb key k); simpl; [reflexivity | exact IH].
Qed.

Lemma get_overwrite_other (key key' : string) (v : js) (o : object) :
  key <> key' -> get key (overwrite key' v o) = get key o.
Proof.
  intros Hne. induction o as [|[k x] rest IH]; simpl; [reflexivity|].
  destruct (String.eqb key k) eqn:Hk.
  - apply String.eqb_eq in Hk. subst k.
    rewrite (eqb_neq_false key' key) by congruence. reflexivity.
  - exact IH.
Qed.

Lemma get_app (key : string) (o o' : object) :
  get key (o ++ o') = if has_key key o then get key o else get key o'.
Proof.
  induction o as [|[k x] rest IH]; simpl; [reflexivity|].
  destruct (String.eqb key k); simpl; [reflexivity | exact IH].
Qed.

Lemma has_key_app (key : string) (o o' : object) :
  has_key key (o ++ o') = has_key key o || has_key key o'.
Proof.
  induction o as [|[k x] rest IH]; simpl; [reflexivity|].
  rewrite IH. now rewrite orb_assoc.
Qed.

Lemma has_key_overwrite (key key' : string) (v : js) (o : object) :
  has_key key (overwrite key' v o) = has_key key o.
Proof.
  induction o as [|[k x] rest IH]; simpl; [reflexivity|]. now rewrite IH.
Qed.

Lemma get_set_same (key : string) (v : js) (o : object) :
  get key (set key v o) = v.
Proof.
  unfold set. destruct (has_key key o) eqn:Hk.
  - now apply get_overwrite_same.
  - rewrite get_app, Hk. simpl. now rewrite String.eqb_refl.
Qed.

Lemma get_set_other (key key' : string) (v : js) (o : object) :
  key <> key' -> get key (set key' v o) = get key o.
Proof.
  intros Hne. unfold set. destruct (has_key key' o).
  - now apply get_overwrite_other.
  - rewrite get_app. simpl. rewrite (eqb_neq_false _ _ Hne).
    destruct (has_key key o) eqn:Hk; [reflexivity|].
    symmetry. now apply get_has_key.
Qed.

Lemma has_key_set_other (key key' : string) (v : js) (o : object) :
  key <> key' -> has_key key (set key' v o) = has_key key o.
Proof.
  intros Hne. unfold set. destruct (has_key key' o).
  - apply has_key_overwrite.
  - rewrite has_key_app. simpl. rewrite (eqb_neq_false _ _ Hne).
    now rewrite !orb_false_r.
Qed.

(** ** Object schemas *)

Section ObjectSchema.
Variable E : Env.
Variable p : list string.
Variable props : object.

Lemma parse_object (shape : list (string * ZodType)) :
  _parse E (ZodObject shape) p (Obj props)
  = (flat_map (field_issues E p props) shape, Obj (output E p props shape)).
Proof.
  simpl.
  match goal with
  | |- (fst (?f shape), Obj (snd (?f shape))) = _ =>
      assert (H : f shape = (flat_map (field_issues E p props) shape, output E p props shape))
  end.
  { induction shape as [|[k t] rest IH]; [reflexivity|].
    rewrite IH. unfold output, kept, field_value, field_issues. simpl.
    destruct (negb _ || _); reflexivity. }
  now rewrite H.
Qed.

Lemma get_output_absent (key : string) (shape : list (string * ZodType)) :
  ~ In key (map fst shape) -> get key (output E p props shape) = Undefined.
Proof.
  unfold output. induction shape as [|[k t] rest IH]; simpl; [reflexivity|].
  intros Hn. destruct (kept E p props (k, t)); simpl.
  - rewrite eqb_neq_false by (intros ->; apply Hn; now left).
    apply IH. intros Hin. apply Hn. now right.
  - apply IH. intros Hin. apply Hn. now right.
Qed.

(** The output binds a key of the shape to its parsed value. *)
Lemma get_output (key : string) (t : ZodType)
    (shape : list (string * ZodType)) :
  NoDup (map fst shape) -> In (key, t) shape ->
  get key (output E p props shape) = field_value E p props (key, t).
Proof.
  unfold output. induction shape as [|[k t'] rest IH]; simpl; [easy|].
  intros Hnd [Heq | Hin].
  - inversion Heq; subst k t'. inversion Hnd as [|? ? Hk _]; subst.
    destruct (kept E p props (key, t)) eqn:Hkept; simpl.
    + now rewrite String.eqb_refl.
    + fold (output E p props rest). rewrite (get_output_absent key rest Hk).
      unfold kept in Hkept. apply orb_false_elim in Hkept as [Hu _].
      destruct (field_value E p props (key, t)); simpl in Hu; try discriminate.
      reflexivity.
  - inversion Hnd as [|? ? Hk Hnd']; subst.
    assert (Hne : key <> k).
    { intros ->. apply Hk. now apply (in_map fst) in Hin. }
    destruct (kept E p props (k, t')); simpl.
    + rewrite (eqb_neq_false _ _ Hne). now apply IH.
    + now apply IH.
Qed.

Lemma has_key_output (key : string) (t : ZodType)
    (shape : list (string * ZodType)) :
  NoDup (map fst shape) -> In (key, t) shape ->
  has_key key (output E p props shape) = kept E p props (key, t).
Proof.
  unfold output. induction shape as [|[k t'] rest IH]; simpl; [easy|].
  intros Hnd [Heq | Hin].
  - inversion Heq; subst k t'. inversion Hnd as [|? ? Hk _]; subst.
    destruct (kept E p props (key, t)) eqn:Hkept; simpl.
    + now rewrite String.eqb_refl.
    + clear IH Hkept Hnd. induction rest as [|[k2 t2] rest IH]; [reflexivity|].
      simpl in *. destruct (kept E p props (k2, t2)); simpl.
      * rewrite eqb_neq_false by (intros ->; apply Hk; now left).
        apply IH. intros Hin. apply Hk. now right.
      * apply IH. intros Hin. apply Hk. now right.
  - inversion Hnd as [|? ? Hk Hnd']; subst.
    assert (Hne : key <> k).
    { intros ->. apply Hk. now apply (in_map fst) in Hin. }
    destruct (kept E p props (k, t')); simpl.
    + rewrite (eqb_neq_false _ _ Hne). now apply IH.
    + now apply IH.
Qed.

End ObjectSchema.

(** An object schema succeeds on an object exactly when every key of its
    shape parses without an issue. *)
Lemma safeParse_object (E : Env) (props : object)
    (shape : list (string * ZodType)) :
  safeParse E (ZodObject shape) (Obj props)
  = match flat_map (field_issues E [] props) shape with
    | [] => Success (Obj (output E [] props shape))
    | i :: rest => Failure (i :: rest)
    end.
Proof.
  unfold safeParse. rewrite parse_object.
  now destruct (flat_map (field_issues E [] props) shape).
Qed.

Lemma flat_map_nil {A B} (f : A -> list B) (l : list A) :
  flat_map f l = [] <-> Forall (fun x => f x = []) l.
Proof.
  induction l as [|x l IH]; simpl.
  - split; [constructor | reflexivity].
  - split.
    + intros H. apply app_eq_nil in H as [Hx Hl].
      constructor; [exact Hx | now apply IH].
    + intros H. inversion H as [|? ? Hx Hl]; subst.
      rewrite Hx. simpl. now apply IH.
Qed.

(** An object schema succeeds on objects only. *)
Lemma safeParse_object_input (E : Env) (shape : list (string * ZodType))
    (v d : js) :
  safeParse E (ZodObject shape) v = Success d -> exists props, v = Obj props.
Proof. destruct v; try discriminate. eauto. Qed.

(** A failure always carries at least one issue. *)
Lemma safeParse_failure_nonempty (E : Env) (t : ZodType) (v : js)
    (errors : list ZodIssue) :
  safeParse E t v = Failure errors -> errors <> [].
Proof.
  unfold safeParse. destruct (_parse E t [] v) as [[|i errs] out].
  - discriminate.
  - intros H. inversion H. discriminate.
Qed.

(** ** The two schemas *)

Lemma jobSchema_unfold : jobSchema = ZodObject job_shape.
Proof. reflexivity. Qed.

Lemma job_keys_NoDup : NoDup (map fst job_shape).
Proof.
  assert (H := NoDup_nodup string_dec (map fst job_shape)).
  vm_compute in H. exact H.
Qed.

Ltac split_Forall :=
  repeat match goal with
         | H : Forall _ (_ :: _) |- _ => inversion H; clear H; subst
         | H : Forall _ [] |- _ => clear H
         end.

(** What a successful parse of a create payload says of each key. *)
Lemma jobSchema_success (E : Env) (props : object) (d : js) :
  safeParse E jobSchema (Obj props) = Success d ->
  d = Obj (output E [] props job_shape)
  /\ Forall (fun kt => field_issues E [] props kt = []) job_shape.
Proof.
  rewrite jobSchema_unfold, safeParse_object.
  destruct (flat_map (field_issues E [] props) job_shape) eqn:Hfm;
    [|discriminate].
  intros H. inversion H. split; [reflexivity | now apply flat_map_nil].
Qed.

Lemma jobSchema_missing_required (E : Env) (props : object) (key : string) :
  In key required_keys -> get key props = Undefined ->
  exists errors, safeParse E jobSchema (Obj props) = Failure errors.
Proof.
  intros Hin Hget. rewrite jobSchema_unfold, safeParse_object.
  destruct (flat_map (field_issues E [] props) job_shape) eqn:Hfm;
    [exfalso | eauto].
  apply flat_map_nil in Hfm. unfold job_shape in Hfm. split_Forall.
  unfold field_issues in *. cbn [fst snd] in *.
  simpl in Hin.
  repeat (destruct Hin as [<- | Hin]; [rewrite Hget in *; discriminate|]).
  contradiction.
Qed.

Lemma jobSchema_negative_salary (E : Env) (props : object) (n : number) :
  get "salary" props = Num n -> number_lt n 0 = true ->
  exists errors, safeParse E jobSchema (Obj props) = Failure errors.
Proof.
  intros Hget Hneg. rewrite jobSchema_unfold, safeParse_object.
  destruct (flat_map (field_issues E [] props) job_shape) eqn:Hfm;
    [exfalso | eauto].
  apply flat_map_nil in Hfm. unfold job_shape in Hfm. split_Forall.
  unfold field_issues in *. cbn [fst snd] in *.
  rewrite Hget in *. simpl in *. rewrite Hneg in *. discriminate.
Qed.

(** ** Create *)

(** Running [POST] on a body that the creation schema accepts issues exactly
    one store call, the insert of the validated object. *)
Lemma POST_valid_calls (E : Env) (v validatedJob : js) (w : World) :
  safeParse E jobSchema v = Success validatedJob ->
  calls (snd (Jobs.POST E (json v) w)) = calls w ++ [c_insert validatedJob].
Proof.
  intros H. unfold Jobs.POST, try_catch, bind, req_json, ret. rewrite H.
  unfold query. destruct (hd None (net w)).
  - reflexivity.
  - destruct (error (fst (run E (c_insert validatedJob) (db w))));
      reflexivity.
Qed.

(** C2, as stated, fails: a payload with a second field next to
    [approved: true] is accepted by the approval schema (an object schema
    strips the keys outside its shape, it does not refuse them). *)
Lemma approveJobSchema_accepts_extra_field :
  safeParse sample_env approveJobSchema
    (Obj [("approved", Bool true); ("note", Str "urgent")])
  = Success (Obj [("approved", Bool true)])
  /\ map fst [("approved", Bool true); ("note", Str "urgent")]
     <> ["approved"].
Proof. split; [reflexivity | discriminate]. Qed.

(** C2, amended: the approval schema succeeds exactly on the objects whose
    [approved] property is the literal [true], whatever other properties they
    carry, and then yields the object [{approved: true}]; on every other
    payload (another value of [approved], [false] included, no such property,
    or a payload that is no object) it fails with at least one issue. *)
Theorem approveJobSchema_characterised (E : Env) (v : js) :
  match safeParse E approveJobSchema v with
  | Success d =>
      d = Obj [("approved", Bool true)]
      /\ exists props, v = Obj props /\ get "approved" props = Bool true
  | Failure errors =>
      errors <> []
      /\ ~ exists props, v = Obj props /\ get "approved" props = Bool true
  end.
Proof.
  destruct v as [| |b|n|s|items|props];
    try (split; [discriminate | intros [o [Ho _]]; discriminate]).
  change approveJobSchema with (ZodObject [("approved", ZodLiteral true)]).
  rewrite safeParse_object. unfold output, kept, field_value, field_issues.
  cbn [flat_map filter map fst snd _parse app].
  destruct (get "approved" props) as [| |b|n|s|items|o] eqn:Hget;
    try (cbn; split; [discriminate | intros [o' [Ho Hg]]; congruence]).
  destruct b; cbn; rewrite ?Hget; cbn.
  - split; [reflexivity | exists props; auto].
  - split; [discriminate | intros [o' [Ho Hg]]; congruence].
Qed.

(** C3, as stated, fails: a create payload that carries [id: 7] passes the
    creation schema, and the object handed to the insert operation carries
    that [id]; the store then keeps the row under the client's identifier. *)
Lemma POST_accepts_client_id :
  let payload := ("id", int 7) :: sample_job false in
  let run := Jobs.POST sample_env (json (Obj payload)) empty_world in
  safeParse sample_env jobSchema (Obj payload) = Success (Obj payload)
  /\ fst run = Ok (NextResponse_json (Str "job created successfully") 201)
  /\ calls (snd run) = [c_insert (Obj payload)]
  /\ get "id" payload = int 7
  /\ map (get "id") (rows (db (snd run))) = [int 7].
Proof. vm_compute. repeat split. Qed.

(** C3, amended: the creation schema admits an optional numeric [id]. When
    a create payload passes the schema, its [id] is absent or a number, and
    the validated object handed to the single insert call carries [id]
    exactly when the payload does, with the payload's value; only a payload
    without [id] leaves the identifier to the store. *)
Theorem POST_forwards_optional_id (E : Env) (v : js) (w : World)
    (validatedJob : js)
    (Hvalid : safeParse E jobSchema v = Success validatedJob) :
  exists props values,
    v = Obj props
    /\ validatedJob = Obj values
    /\ (get "id" props = Undefined \/ exists n, get "id" props = Num n)
    /\ get "id" values = get "id" props
    /\ has_key "id" values = has_key "id" props
    /\ calls (snd (Jobs.POST E (json v) w))
       = calls w ++ [c_insert validatedJob].
Proof.
  pose proof (POST_valid_calls E _ _ w Hvalid) as Hcalls.
  destruct (safeParse_object_input _ _ _ _ Hvalid) as [props ->].
  apply jobSchema_success in Hvalid as [-> Hall].
  assert (Hin : In ("id", ZodOptional (ZodNumber [])) job_shape)
    by (now left).
  rewrite Forall_forall in Hall. specialize (Hall _ Hin).
  unfold field_issues in Hall. cbn [fst snd] in Hall.
  assert (Hval : field_value E [] props ("id", ZodOptional (ZodNumber []))
                 = get "id" props).
  { unfold field_value. cbn [fst snd].
    destruct (get "id" props); try reflexivity; discriminate. }
  exists props, (output E [] props job_shape).
  split; [reflexivity|]. split; [reflexivity|]. split; [|split; [|split]].
  - destruct (get "id" props); try discriminate; eauto.
  - rewrite (get_output E [] props _ _ _ job_keys_NoDup Hin). exact Hval.
  - rewrite (has_key_output E [] props _ _ _ job_keys_NoDup Hin).
    unfold kept. rewrite Hval. cbn [fst].
    destruct (has_key "id" props) eqn:Hk; [apply orb_true_r|].
    now rewrite (get_has_key _ _ Hk).
  - exact Hcalls.
Qed.

Lemma POST_forwards_optional_id_witness :
  exists props values,
    Obj (sample_job false) = Obj props
    /\ Obj (sample_job false) = Obj values
    /\ (get "id" props = Undefined \/ exists n, get "id" props = Num n)
    /\ get "id" values = get "id" props
    /\ has_key "id" values = has_key "id" props
    /\ calls (snd (Jobs.POST sample_env (json (Obj (sample_job false)))
                     empty_world))
       = calls empty_world ++ [c_insert (Obj (sample_job false))].
Proof.
  exact (POST_forwards_optional_id sample_env (Obj (sample_job false))
           empty_world (Obj (sample_job false)) eq_refl).
Defined.

(** C4: a create request whose body fails the creation schema is answered
    with status 400 and the list of issues, which is never empty, and the
    world is left as it was: no call reaches the store and the table is
    unchanged. *)
Theorem POST_invalid_body (E : Env) (v : js) (w : World)
    (errors : list ZodIssue)
    (Hinvalid : safeParse E jobSchema v = Failure errors) :
  Jobs.POST E (json v) w
  = (Ok {| status := 400; body := Obj [("error", errors_js errors)] |}, w)
  /\ errors <> []
  /\ errors_js errors <> Arr [].
Proof.
  split; [|split].
  - unfold Jobs.POST, try_catch, bind, req_json, ret. now rewrite Hinvalid.
  - exact (safeParse_failure_nonempty _ _ _ _ Hinvalid).
  - apply safeParse_failure_nonempty in Hinvalid.
    destruct errors; [contradiction | discriminate].
Qed.

Lemma POST_invalid_body_witness :
  Jobs.POST sample_env (json (Obj bad_job)) one_job_world
  = (Ok {| status := 400;
           body := Obj [("error", errors_js bad_job_errors)] |},
     one_job_world)
  /\ bad_job_errors <> []
  /\ errors_js bad_job_errors <> Arr [].
Proof.
  exact (POST_invalid_body sample_env (Obj bad_job) one_job_world
           bad_job_errors eq_refl).
Defined.

(** C9: a create request whose body is not JSON is answered with status 500
    and the body [{error: "Failed to create job"}], not with a 400, and the
    world is left as it was: no call reaches the store. *)
Theorem POST_not_json (E : Env) (w : World) :
  Jobs.POST E not_json w
  = (Ok {| status := 500;
           body := Obj [("error", Str "Failed to create job")] |}, w).
Proof.
  unfold Jobs.POST, try_catch.
  assert (Hthrow : forall k : js -> M Response,
             bind (req_json not_json) k w = (Thrown "SyntaxError", w))
    by reflexivity.
  now rewrite Hthrow.
Qed.

Ltac timestamp_field F :=
  unfold field_issues, field_value, with_timestamps in *; cbn [fst snd] in *;
  first
    [ rewrite get_set_same
    | rewrite get_set_other by discriminate;
      first [ rewrite get_set_same
            | rewrite get_set_other by discriminate; exact F ] ].

(** C10: the creation schema checks no format on [created_at] and
    [updated_at]. Whenever the other thirteen keys of a payload are valid,
    the payload passes with any two strings in these keys (the empty string
    and text that is no timestamp included), and the validated object that
    [POST] hands to the insert call carries the two strings unchanged. *)
Theorem jobSchema_timestamps_unchecked (E : Env) (props : object)
    (created_at updated_at : string) (others : js)
    (Hothers : safeParse E otherFieldsSchema (Obj props) = Success others) :
  exists values,
    safeParse E jobSchema (Obj (with_timestamps created_at updated_at props))
    = Success (Obj values)
    /\ get "created_at" values = Str created_at
    /\ get "updated_at" values = Str updated_at
    /\ forall w,
         calls (snd (Jobs.POST E
                       (json (Obj (with_timestamps created_at updated_at
                                     props))) w))
         = calls w ++ [c_insert (Obj values)].
Proof.
  set (payload := with_timestamps created_at updated_at props).
  assert (Hissues : flat_map (field_issues E [] payload) job_shape = []).
  { unfold otherFieldsSchema in Hothers.
    change (z.omit ["created_at"; "updated_at"] jobSchema)
      with (ZodObject (removelast (removelast job_shape))) in Hothers.
    rewrite safeParse_object in Hothers.
    destruct (flat_map (field_issues E [] props)
                (removelast (removelast job_shape))) eqn:Hfm;
      [|discriminate].
    apply flat_map_nil in Hfm. cbv [removelast job_shape] in Hfm.
    split_Forall.
    apply flat_map_nil. subst payload. unfold job_shape.
    repeat (apply Forall_cons; [|]); try apply Forall_nil.
    all: try (timestamp_field I; reflexivity).
    all: match goal with
         | F : field_issues _ _ _ (?k, _) = []
           |- field_issues _ _ _ (?k, _) = [] => timestamp_field F
         end. }
  assert (Hparse : safeParse E jobSchema (Obj payload)
                   = Success (Obj (output E [] payload job_shape))).
  { rewrite jobSchema_unfold, safeParse_object. now rewrite Hissues. }
  exists (output E [] payload job_shape). split; [exact Hparse|].
  split; [|split].
  - rewrite (get_output E [] payload "created_at" (ZodString []) job_shape
               job_keys_NoDup) by (unfold job_shape; simpl; tauto).
    subst payload. timestamp_field I. reflexivity.
  - rewrite (get_output E [] payload "updated_at" (ZodString []) job_shape
               job_keys_NoDup) by (unfold job_shape; simpl; tauto).
    subst payload. timestamp_field I. reflexivity.
  - intros w. now apply POST_valid_calls.
Qed.

Lemma jobSchema_timestamps_unchecked_witness :
  exists values,
    safeParse sample_env jobSchema
      (Obj (with_timestamps "" "next Tuesday" (sample_job false)))
    = Success (Obj values)
    /\ get "created_at" values = Str ""
    /\ get "updated_at" values = Str "next Tuesday"
    /\ forall w,
         calls (snd (Jobs.POST sample_env
                       (json (Obj (with_timestamps "" "next Tuesday"
                                     (sample_job false)))) w))
         = calls w ++ [c_insert (Obj values)].
Proof.
  exact (jobSchema_timestamps_unchecked sample_env (sample_job false)
           "" "next Tuesday"
           (Obj (removelast (removelast (sample_job false)))) eq_refl).
Defined.

(** ** The store *)

Lemma run_select_found (E : Env) (id : string) (d : Db) (row : object) :
  find_row E id d = Some row ->
  run E (c_select_single id) d = (answer (Obj row), d).
Proof.
  unfold find_row, run. destruct (int_of_text E id); [|discriminate].
  destruct (filter (eq_id z) (rows d)) as [|r [|r' l]]; try discriminate.
  now intros [= ->].
Qed.

Lemma run_select_missing (E : Env) (id : string) (d : Db) :
  find_row E id d = None ->
  exists message, run E (c_select_single id) d = (failure message, d).
Proof.
  unfold find_row, run. destruct (int_of_text E id); [|eauto].
  destruct (filter (eq_id z) (rows d)) as [|r [|r' l]];
    try discriminate; eauto.
Qed.

Lemma find_row_spec (E : Env) (id : string) (d : Db) (row : object) :
  find_row E id d = Some row ->
  exists n, int_of_text E id = Some n /\ filter (eq_id n) (rows d) = [row].
Proof.
  unfold find_row. destruct (int_of_text E id) as [n|]; [|discriminate].
  destruct (filter (eq_id n) (rows d)) as [|r [|r' l]] eqn:Hf;
    try discriminate.
  intros [= ->]. eauto.
Qed.

Lemma spread_approval (now : string) (row : object) :
  spread row (approval now) = approved_view now row.
Proof. reflexivity. Qed.

Lemma get_approved_view (now key : string) (row : object) :
  key <> "approved" -> key <> "updated_at" ->
  get key (approved_view now row) = get key row.
Proof.
  intros Ha Hu. unfold approved_view.
  now rewrite !get_set_other by assumption.
Qed.

Lemma approved_view_approved (now : string) (row : object) :
  get "approved" (approved_view now row) = Bool true.
Proof.
  unfold approved_view.
  rewrite get_set_other by discriminate. apply get_set_same.
Qed.

Lemma approved_view_updated_at (now : string) (row : object) :
  get "updated_at" (approved_view now row) = Str now.
Proof. apply get_set_same. Qed.

Lemma eq_id_approved_view (n : Z) (now : string) (row : object) :
  eq_id n (approved_view now row) = eq_id n row.
Proof.
  unfold eq_id. now rewrite get_approved_view by discriminate.
Qed.

Lemma run_update_approval (E : Env) (id : string) (n : Z) (now : string)
    (d : Db) :
  int_of_text E id = Some n ->
  run E (c_update (approval now) id) d = (answer Null, approve_rows n now d).
Proof. intros H. unfold run. now rewrite H. Qed.

Lemma filter_approve_rows (n : Z) (now : string) (l : list object) :
  filter (eq_id n)
    (map (fun row => if eq_id n row then approved_view now row else row) l)
  = map (approved_view now) (filter (eq_id n) l).
Proof.
  induction l as [|r l IH]; simpl; [reflexivity|].
  destruct (eq_id n r) eqn:Hr.
  - rewrite eq_id_approved_view, Hr. simpl. now rewrite IH.
  - now rewrite Hr.
Qed.

(** ** Approve *)

Section Approve.
Variable E : Env.
Variable id : string.
Variable v : js.
Variable w : World.
Hypothesis Hid : id <> "".

Lemma PUT_invalid (errors : list ZodIssue) :
  safeParse E approveJobSchema v = Failure errors ->
  JobById.PUT E (json v) id w
  = (Ok {| status := 400; body := Obj [("error", errors_js errors)] |}, w).
Proof.
  intros H. unfold JobById.PUT. rewrite (eqb_neq_false _ _ Hid).
  unfold bind, req_json, ret. now rewrite H.
Qed.

Lemma PUT_select_failed (d : js) (message : string) :
  safeParse E approveJobSchema v = Success d ->
  hd None (net w) = Some message ->
  JobById.PUT E (json v) id w = (Ok (not_found id), after_select id w).
Proof.
  intros H Hnet. unfold JobById.PUT. rewrite (eqb_neq_false _ _ Hid).
  unfold bind at 1, req_json, ret at 1. rewrite H.
  unfold try_catch, bind, query. rewrite Hnet. reflexivity.
Qed.

Lemma PUT_row_missing (d : js) :
  safeParse E approveJobSchema v = Success d ->
  find_row E id (db w) = None ->
  JobById.PUT E (json v) id w = (Ok (not_found id), after_select id w).
Proof.
  intros H Hrow. destruct (hd None (net w)) as [message|] eqn:Hnet.
  { eapply PUT_select_failed; eauto. }
  unfold JobById.PUT. rewrite (eqb_neq_false _ _ Hid).
  unfold bind at 1, req_json, ret at 1. rewrite H.
  unfold try_catch, bind, query. rewrite Hnet.
  destruct (run_select_missing _ _ _ Hrow) as [message ->]. reflexivity.
Qed.

Lemma PUT_update_failed (d : js) (row : object) (message : string) :
  safeParse E approveJobSchema v = Success d ->
  hd None (net w) = None ->
  find_row E id (db w) = Some row ->
  hd None (tl (net w)) = Some message ->
  JobById.PUT E (json v) id w
  = (Ok {| status := 500;
           body := Obj [("error", Str "Failed to approve job")] |},
     after_update id w (db w)).
Proof.
  intros H Hnet Hrow Hnet2. unfold JobById.PUT.
  rewrite (eqb_neq_false _ _ Hid).
  unfold bind at 1, req_json, ret at 1. rewrite H.
  unfold try_catch, bind, query, Date_toISOString. rewrite Hnet.
  rewrite (run_select_found _ _ _ _ Hrow).
  cbn [fst snd error data answer is_some falsy orb spread_js net clock db
       calls].
  change [("approved", Bool true); ("updated_at", Str (clock w))]
    with (approval (clock w)).
  rewrite spread_approval, Hnet2, !approved_view_updated_at. reflexivity.
Qed.

Lemma PUT_approved (d : js) (row : object) (n : Z) :
  safeParse E approveJobSchema v = Success d ->
  hd None (net w) = None ->
  find_row E id (db w) = Some row ->
  int_of_text E id = Some n ->
  hd None (tl (net w)) = None ->
  JobById.PUT E (json v) id w
  = (Ok {| status := 200;
           body := Obj [("message", Str "Job approved successfully");
                        ("job", Obj (approved_view (clock w) row))] |},
     after_update id w (approve_rows n (clock w) (db w))).
Proof.
  intros H Hnet Hrow Hn Hnet2. unfold JobById.PUT.
  rewrite (eqb_neq_false _ _ Hid).
  unfold bind at 1, req_json, ret at 1. rewrite H.
  unfold try_catch, bind, query, Date_toISOString. rewrite Hnet.
  rewrite (run_select_found _ _ _ _ Hrow).
  cbn [fst snd error data answer is_some falsy orb spread_js net clock db
       calls].
  change [("approved", Bool true); ("updated_at", Str (clock w))]
    with (approval (clock w)).
  rewrite spread_approval, Hnet2, !approved_view_updated_at.
  change [("approved", Bool true); ("updated_at", Str (clock w))]
    with (approval (clock w)).
  rewrite (run_update_approval _ _ _ _ _ Hn). reflexivity.
Qed.

End Approve.

Lemma approveJobSchema_valid (E : Env) (props : object) :
  get "approved" props = Bool true ->
  safeParse E approveJobSchema (Obj props)
  = Success (Obj [("approved", Bool true)]).
Proof.
  intros H.
  change approveJobSchema with (ZodObject [("approved", ZodLiteral true)]).
  rewrite safeParse_object. unfold output, kept, field_value, field_issues.
  cbn [flat_map filter map fst snd _parse app]. rewrite !H. cbn.
  now rewrite H.
Qed.

Lemma find_row_no_match (E : Env) (id : string) (d : Db) :
  (forall row, In row (rows d) -> matches E id row = false) ->
  find_row E id d = None.
Proof.
  unfold matches, find_row. intros H.
  destruct (int_of_text E id) as [n|]; [|reflexivity].
  destruct (filter (eq_id n) (rows d)) as [|r l] eqn:Hf; [reflexivity|].
  assert (Hin : In r (filter (eq_id n) (rows d))) by (rewrite Hf; now left).
  apply filter_In in Hin as [Hin Hr]. rewrite (H r Hin) in Hr. discriminate.
Qed.

(** C6: on an approve request with an identifier, an invalid body (such as
    [{approved: false}]) is answered with status 400 and the non-empty list
    of issues while the world stays as it was (no call reaches the store);
    a valid body with an identifier that selects no row is answered with
    status 404, whatever the fate of the round trip, after the single
    select-by-id call and with the table unchanged. *)
Theorem PUT_error_paths (E : Env) (id : string) (w : World)
    (Hid : id <> "") :
  (forall v errors,
      safeParse E approveJobSchema v = Failure errors ->
      JobById.PUT E (json v) id w
      = (Ok {| status := 400; body := Obj [("error", errors_js errors)] |},
         w)
      /\ errors <> [])
  /\ (exists errors,
        safeParse E approveJobSchema (Obj [("approved", Bool false)])
        = Failure errors)
  /\ (forall props,
        get "approved" props = Bool true ->
        (forall row, In row (rows (db w)) -> matches E id row = false) ->
        exists w',
          JobById.PUT E (json (Obj props)) id w
          = (Ok {| status := 404;
                   body := Obj [("error",
                                 Str ("Job with ID " ++ id
                                      ++ " not found")%string)] |}, w')
          /\ db w' = db w
          /\ calls w' = calls w ++ [c_select_single id]).
Proof.
  split; [|split].
  - intros v errors H. split.
    + now apply PUT_invalid.
    + exact (safeParse_failure_nonempty _ _ _ _ H).
  - eexists. reflexivity.
  - intros props Hbody Hnone. exists (after_select id w).
    split; [|split; reflexivity].
    eapply PUT_row_missing; eauto using approveJobSchema_valid,
      find_row_no_match.
Qed.

Lemma PUT_error_paths_witness :
  (JobById.PUT sample_env (json (Obj [("approved", Bool false)])) "1"
     one_job_world
   = (Ok {| status := 400;
            body := Obj [("error",
                          errors_js [{| code := invalid_literal (Bool true);
                                        path := ["approved"] |}])] |},
      one_job_world))
  /\ fst (JobById.PUT sample_env (json (Obj [("approved", Bool true)])) "42"
            one_job_world)
     = Ok {| status := 404;
             body := Obj [("error", Str "Job with ID 42 not found")] |}.
Proof.
  split.
  - destruct (PUT_error_paths sample_env "1" one_job_world) as [H _];
      [discriminate|].
    exact (proj1 (H (Obj [("approved", Bool false)]) _ eq_refl)).
  - destruct (PUT_error_paths sample_env "42" one_job_world) as [_ [_ H]];
      [discriminate|].
    destruct (H [("approved", Bool true)] eq_refl) as [w' [Hrun _]].
    + intros row [<- | []]. reflexivity.
    + now rewrite Hrun.
Defined.

Lemma Forall2_map_right {A B} (P : A -> B -> Prop) (f : A -> B)
    (l : list A) :
  (forall x, P x (f x)) -> Forall2 P l (map f l).
Proof. intros H. induction l; simpl; constructor; auto. Qed.

(** C7: an approve request answered with status 200 has issued exactly two
    store calls, the select-by-id and then an update whose field set is
    [approved] and [updated_at] only; in the table every row keeps all its
    other columns, the rows the identifier selects become their approved
    view and the others stay as they were; and the body carries the view
    built from the row that was read (with [approved] true and [updated_at]
    the current time), no read following the update. *)
Theorem PUT_success_frame (E : Env) (req : RequestBody) (id : string)
    (w w' : World) (resp : Response)
    (Hrun : JobById.PUT E req id w = (Ok resp, w'))
    (Hok : status resp = 200%nat) :
  exists n row,
    int_of_text E id = Some n
    /\ filter (eq_id n) (rows (db w)) = [row]
    /\ body resp
       = Obj [("message", Str "Job approved successfully");
              ("job",
               Obj (set "updated_at" (Str (clock w))
                      (set "approved" (Bool true) row)))]
    /\ calls w'
       = calls w ++ [c_select_single id;
                     c_update [("approved", Bool true);
                               ("updated_at", Str (clock w))] id]
    /\ next_id (db w') = next_id (db w)
    /\ Forall2
         (fun old new =>
            new = (if eq_id n old
                   then set "updated_at" (Str (clock w))
                          (set "approved" (Bool true) old)
                   else old)
            /\ forall key, key <> "approved" -> key <> "updated_at" ->
                           get key new = get key old)
         (rows (db w)) (rows (db w')).
Proof.
  destruct (String.eqb id "") eqn:Hid.
  { unfold JobById.PUT in Hrun. rewrite Hid in Hrun.
    inversion Hrun; subst. discriminate. }
  apply String.eqb_neq in Hid.
  destruct req as [|v].
  { unfold JobById.PUT in Hrun. rewrite (eqb_neq_false _ _ Hid) in Hrun.
    discriminate. }
  destruct (safeParse E approveJobSchema v) as [d|errors] eqn:Hparse.
  2:{ rewrite (PUT_invalid E id v w Hid errors Hparse) in Hrun.
      inversion Hrun; subst. discriminate. }
  destruct (hd None (net w)) as [message|] eqn:Hnet.
  { rewrite (PUT_select_failed E id v w Hid d message Hparse Hnet) in Hrun.
    inversion Hrun; subst. discriminate. }
  destruct (find_row E id (db w)) as [row|] eqn:Hrow.
  2:{ rewrite (PUT_row_missing E id v w Hid d Hparse Hrow) in Hrun.
      inversion Hrun; subst. discriminate. }
  destruct (find_row_spec _ _ _ _ Hrow) as [n [Hn Hfilter]].
  destruct (hd None (tl (net w))) as [message|] eqn:Hnet2.
  { rewrite (PUT_update_failed E id v w Hid d row message Hparse Hnet Hrow
               Hnet2) in Hrun.
    inversion Hrun; subst. discriminate. }
  rewrite (PUT_approved E id v w Hid d row n Hparse Hnet Hrow Hn Hnet2)
    in Hrun.
  inversion Hrun; subst. exists n, row.
  split; [exact Hn|]. split; [exact Hfilter|]. split; [reflexivity|].
  split; [simpl; now rewrite <- app_assoc|]. split; [reflexivity|].
  simpl. apply Forall2_map_right. intros old. split; [reflexivity|].
  intros key Ha Hu. destruct (eq_id n old); [|reflexivity].
  now apply get_approved_view.
Qed.

Lemma PUT_success_frame_witness :
  exists n row,
    int_of_text sample_env "1" = Some n
    /\ filter (eq_id n) (rows (db one_job_world)) = [row]
    /\ body (NextResponse_json
               (Obj [("message", Str "Job approved successfully");
                     ("job",
                      Obj (approved_view (clock one_job_world) sample_row))])
               200)
       = Obj [("message", Str "Job approved successfully");
              ("job",
               Obj (set "updated_at" (Str (clock one_job_world))
                      (set "approved" (Bool true) row)))]
    /\ calls (after_update "1" one_job_world
                (approve_rows 1 (clock one_job_world) (db one_job_world)))
       = calls one_job_world
         ++ [c_select_single "1";
             c_update [("approved", Bool true);
                       ("updated_at", Str (clock one_job_world))] "1"]
    /\ next_id (db (after_update "1" one_job_world
                      (approve_rows 1 (clock one_job_world)
                         (db one_job_world))))
       = next_id (db one_job_world)
    /\ Forall2
         (fun old new =>
            new = (if eq_id n old
                   then set "updated_at" (Str (clock one_job_world))
                          (set "approved" (Bool true) old)
                   else old)
            /\ forall key, key <> "approved" -> key <> "updated_at" ->
                           get key new = get key old)
         (rows (db one_job_world))
         (rows (db (after_update "1" one_job_world
                      (approve_rows 1 (clock one_job_world)
                         (db one_job_world))))).
Proof.
  exact (PUT_success_frame sample_env (json (Obj [("approved", Bool true)]))
           "1" one_job_world _ _ eq_refl eq_refl).
Defined.

(** ** Approving twice *)

(** One approval of an existing job when every round trip is delivered. *)
Lemma PUT_existing (E : Env) (id : string) (props : object) (n : Z)
    (row : object) (w : World) :
  id <> "" ->
  get "approved" props = Bool true ->
  int_of_text E id = Some n ->
  filter (eq_id n) (rows (db w)) = [row] ->
  net w = [] ->
  JobById.PUT E (json (Obj props)) id w
  = (Ok {| status := 200;
           body := Obj [("message", Str "Job approved successfully");
                        ("job", Obj (approved_view (clock w) row))] |},
     after_update id w (approve_rows n (clock w) (db w)))
  /\ filter (eq_id n)
       (rows (db (after_update id w (approve_rows n (clock w) (db w)))))
     = [approved_view (clock w) row]
  /\ net (after_update id w (approve_rows n (clock w) (db w))) = [].
Proof.
  intros Hid Hbody Hn Hrow Hnet. split; [|split].
  - apply (PUT_approved E id (Obj props) w Hid
             (Obj [("approved", Bool true)]) row n).
    + now apply approveJobSchema_valid.
    + now rewrite Hnet.
    + unfold find_row. now rewrite Hn, Hrow.
    + exact Hn.
    + now rewrite Hnet.
  - simpl. now rewrite filter_approve_rows, Hrow.
  - simpl. now rewrite Hnet.
Qed.

(** C8: approving is idempotent in effect. For a job that exists (its
    identifier selects exactly one row) and with every round trip delivered,
    a first approve request is answered 200 and leaves the job approved; a
    second approve of the same identifier, at any later time, is answered 200
    again and the job is still approved. *)
Theorem PUT_twice (E : Env) (id : string) (props : object) (n : Z)
    (row : object) (w : World) (later : string)
    (Hid : id <> "")
    (Hbody : get "approved" props = Bool true)
    (Hn : int_of_text E id = Some n)
    (Hrow : filter (eq_id n) (rows (db w)) = [row])
    (Hnet : net w = []) :
  let first := JobById.PUT E (json (Obj props)) id w in
  let second :=
    JobById.PUT E (json (Obj props)) id (set_clock later (snd first)) in
  (exists r1, fst first = Ok r1 /\ status r1 = 200%nat)
  /\ (exists row1,
        filter (eq_id n) (rows (db (snd first))) = [row1]
        /\ get "approved" row1 = Bool true)
  /\ (exists r2, fst second = Ok r2 /\ status r2 = 200%nat)
  /\ (exists row2,
        filter (eq_id n) (rows (db (snd second))) = [row2]
        /\ get "approved" row2 = Bool true).
Proof.
  intros first second.
  destruct (PUT_existing E id props n row w Hid Hbody Hn Hrow Hnet)
    as [H1 [Hrow1 Hnet1]].
  set (w1 := after_update id w (approve_rows n (clock w) (db w))) in *.
  assert (Hfirst : first = (Ok {| status := 200;
                                  body := Obj [("message",
                                                Str "Job approved successfully");
                                               ("job",
                                                Obj (approved_view (clock w)
                                                       row))] |}, w1))
    by exact H1.
  destruct (PUT_existing E id props n (approved_view (clock w) row)
              (set_clock later w1) Hid Hbody Hn Hrow1 Hnet1)
    as [H2 [Hrow2 _]].
  subst second. rewrite Hfirst. cbn [fst snd]. rewrite H2. cbn [fst snd].
  split; [eexists; split; reflexivity|].
  split; [eexists; split; [exact Hrow1 | apply approved_view_approved]|].
  split; [eexists; split; reflexivity|].
  eexists; split; [exact Hrow2 | apply approved_view_approved].
Qed.

Lemma PUT_twice_witness :
  let first :=
    JobById.PUT sample_env (json (Obj [("approved", Bool true)])) "1"
      one_job_world in
  let second :=
    JobById.PUT sample_env (json (Obj [("approved", Bool true)])) "1"
      (set_clock "2024-06-02T08:30:00.000Z" (snd first)) in
  (exists r1, fst first = Ok r1 /\ status r1 = 200%nat)
  /\ (exists row1,
        filter (eq_id 1) (rows (db (snd first))) = [row1]
        /\ get "approved" row1 = Bool true)
  /\ (exists r2, fst second = Ok r2 /\ status r2 = 200%nat)
  /\ (exists row2,
        filter (eq_id 1) (rows (db (snd second))) = [row2]
        /\ get "approved" row2 = Bool true).
Proof.
  exact (PUT_twice sample_env "1" [("approved", Bool true)] 1 sample_row
           one_job_world "2024-06-02T08:30:00.000Z"
           ltac:(discriminate) eq_refl eq_refl eq_refl eq_refl).
Defined.

(** ** Delete *)

(** [DELETE] answers 404 exactly when the store reports an error: the round
    trip failed or the identifier could not be read. Whether a row existed
    plays no part. *)
Lemma DELETE_status (E : Env) (id : string) (w : World) :
  exists resp,
    fst (JobById.DELETE E id w) = Ok resp
    /\ status resp
       = match hd None (net w), int_of_text E id with
         | None, Some _ => 200%nat
         | _, _ => 404%nat
         end.
Proof.
  unfold JobById.DELETE, bind, query, run.
  destruct (hd None (net w)); [eexists; split; reflexivity|].
  destruct (int_of_text E id); eexists; split; reflexivity.
Qed.

(** C5 does not hold of the code: deleting the identifier [42], which no row
    of the table has, is answered with status 200 and the confirmation
    message, the table being left as it was. *)
Theorem DELETE_absent_row :
  (forall row, In row (rows (db one_job_world)) ->
               matches sample_env "42" row = false)
  /\ JobById.DELETE sample_env "42" one_job_world
     = (Ok {| status := 200;
              body := Obj [("message", Str "Job deleted successfully")] |},
        {| db := db one_job_world;
           net := [];
           clock := clock one_job_world;
           calls := calls one_job_world ++ [c_delete "42"] |}).
Proof.
  split.
  - intros row [<- | []]. reflexivity.
  - reflexivity.
Qed.

(** * Further properties of the handlers *)

(** ** One round trip *)

Lemma query_failed (E : Env) (call : StoreCall) (w : World)
    (message : string) :
  hd None (net w) = Some message ->
  query E call w = (Ok (failure message), after_call call w (db w)).
Proof. intros H. unfold query. now rewrite H. Qed.

Lemma query_delivered (E : Env) (call : StoreCall) (w : World) :
  hd None (net w) = None ->
  query E call w
  = (Ok (fst (run E call (db w))),
     after_call call w (snd (run E call (db w)))).
Proof. intros H. unfold query. now rewrite H. Qed.

Lemma run_select_keeps (E : Env) (id : string) (d : Db) :
  snd (run E (c_select_single id) d) = d.
Proof.
  unfold run. destruct (int_of_text E id); [|reflexivity].
  now destruct (filter (eq_id z) (rows d)) as [|r [|r' l]].
Qed.

Lemma to_json_is_object (v : js) (o : object) :
  to_json v = Obj o -> exists values, v = Obj values /\ o = json_object values.
Proof.
  destruct v as [| |b|[q| |]|s|l|values]; simpl; try discriminate.
  intros [= <-]. eauto.
Qed.

Lemma get_json_object_absent (key : string) (o : object) :
  ~ In key (map fst o) -> get key (json_object o) = Undefined.
Proof.
  unfold json_object. induction o as [|[k x] rest IH]; [reflexivity|].
  cbn [flat_map map fst snd]. intros Hn. rewrite get_app.
  assert (Hne : key <> k) by (intros ->; apply Hn; now left).
  assert (Hrest : ~ In key (map fst rest))
    by (intros Hin; apply Hn; now right).
  destruct (to_json x); cbn [has_key get]; rewrite ?(eqb_neq_false _ _ Hne);
    cbn [orb]; auto.
Qed.

(** Reading a key of the JSON sent for an object with distinct keys gives
    what JSON makes of the key's value. *)
Lemma get_json_object (key : string) (o : object) :
  NoDup (map fst o) -> get key (json_object o) = to_json (get key o).
Proof.
  unfold json_object. induction o as [|[k x] rest IH]; [reflexivity|].
  cbn [flat_map map fst snd get]. intros Hnd.
  inversion Hnd as [|? ? Hk Hrest]; subst. rewrite get_app.
  destruct (String.eqb key k) eqn:Hkey.
  - apply String.eqb_eq in Hkey. subst k.
    destruct (to_json x) eqn:Hx; cbn [has_key get orb];
      rewrite ?String.eqb_refl; cbn [orb]; try reflexivity.
    exact (get_json_object_absent key rest Hk).
  - destruct (to_json x); cbn [has_key get orb]; rewrite ?Hkey; cbn [orb];
      auto.
Qed.

Lemma NoDup_output_keys (E : Env) (p : list string) (props : object)
    (shape : list (string * ZodType)) :
  NoDup (map fst shape) -> NoDup (map fst (output E p props shape)).
Proof.
  unfold output. rewrite map_map. cbn [fst].
  induction shape as [|[k t] rest IH]; cbn [filter map fst];
    [constructor|].
  intros Hnd. inversion Hnd as [|? ? Hk Hrest]; subst.
  destruct (kept E p props (k, t)); cbn [map fst]; auto.
  constructor; auto. intros Hin. apply Hk.
  apply in_map_iff in Hin as [kt [Hkt Hin]].
  apply filter_In in Hin as [Hin _]. apply in_map_iff. eauto.
Qed.

(** What an insert does: it reports an error and keeps the rows, or reports
    none and appends one row, read from the JSON of the object it was given,
    under an identifier no row had. *)
Lemma run_insert_cases (E : Env) (v : js) (d : Db) :
  (exists message,
      error (fst (run E (c_insert v) d)) = Some message
      /\ rows (snd (run E (c_insert v) d)) = rows d)
  \/ (error (fst (run E (c_insert v) d)) = None
      /\ exists values n,
           v = Obj values
           /\ rows (snd (run E (c_insert v) d))
              = rows d ++ [new_row n (json_object values)]
           /\ existsb (eq_id n) (rows d) = false).
Proof.
  unfold run. destruct (to_json v) as [| |b|x|s|l|sent] eqn:Hjson;
    try (left; eexists; split; reflexivity).
  apply to_json_is_object in Hjson as [values [-> ->]].
  destruct (get "id" (json_object values)) as [| |b|x|s|l|o];
    try (left; eexists; split; reflexivity).
  - destruct (existsb (eq_id (next_id d)) (rows d)) eqn:Hdup.
    + left. eexists; split; reflexivity.
    + right. split; [reflexivity|]. exists values, (next_id d). auto.
  - destruct (number_int x) as [n|];
      [|left; eexists; split; reflexivity].
    destruct (existsb (eq_id n) (rows d)) eqn:Hdup.
    + left. eexists; split; reflexivity.
    + right. split; [reflexivity|]. exists values, n. auto.
Qed.

(** ** List *)

(** X1: [GET /api/jobs] issues one select-all. When the round trip is
    delivered it answers 200 with every row of the table under [jobs], in
    table order and unfiltered; when it fails it answers 500 with the
    reported message. The table is unchanged either way. *)
Theorem GET_list_outcome (E : Env) (w : World) :
  Jobs.GET E w
  = (Ok match hd None (net w) with
        | None =>
            {| status := 200;
               body := Obj [("jobs", Arr (map Obj (rows (db w))))] |}
        | Some message =>
            {| status := 500; body := Obj [("error", Str message)] |}
        end,
     after_call c_select_all w (db w)).
Proof.
  unfold Jobs.GET, try_catch, bind.
  destruct (hd None (net w)) as [message|] eqn:Hnet.
  - now rewrite (query_failed E _ w message Hnet).
  - now rewrite (query_delivered E _ w Hnet).
Qed.

(** ** Get *)

(** X2: [GET /api/jobs/{id}] issues one select-by-id and never changes the
    table. It answers 200 with the row exactly when the round trip is
    delivered and the identifier selects one row; in every other case
    (failed round trip, unreadable identifier, no row) it answers 404 with
    [{error: "Job not found"}], never 500. *)
Theorem GET_item_outcome (E : Env) (id : string) (w : World) :
  JobById.GET E id w
  = (Ok match hd None (net w), find_row E id (db w) with
        | None, Some row => {| status := 200; body := Obj row |}
        | _, _ =>
            {| status := 404; body := Obj [("error", Str "Job not found")] |}
        end,
     after_call (c_select_single id) w (db w)).
Proof.
  unfold JobById.GET, bind.
  destruct (hd None (net w)) as [message|] eqn:Hnet.
  - now rewrite (query_failed E _ w message Hnet).
  - rewrite (query_delivered E _ w Hnet), run_select_keeps.
    destruct (find_row E id (db w)) as [row|] eqn:Hrow.
    + now rewrite (run_select_found _ _ _ _ Hrow).
    + destruct (run_select_missing _ _ _ Hrow) as [message Hrun].
      now rewrite Hrun.
Qed.

(** ** The creation schema, key by key *)

Lemma parse_flat_value (E : Env) (t : ZodType) (p : list string) (v : js) :
  flat t = true -> fst (_parse E t p v) = [] -> snd (_parse E t p v) = v.
Proof.
  revert v. induction t as [checks|checks| |value|inner IH|shape];
    intros v Hflat Hok; try discriminate; destruct v; simpl in *;
    try reflexivity; try discriminate; auto.
  destruct (eqb b value); [reflexivity | discriminate].
Qed.

Lemma parse_flat_path (E : Env) (t : ZodType) (p : list string) (v : js)
    (i : ZodIssue) :
  flat t = true -> In i (fst (_parse E t p v)) -> path i = p.
Proof.
  revert v. induction t as [checks|checks| |value|inner IH|shape];
    intros v Hflat Hin; try discriminate; destruct v; simpl in *;
    try (destruct Hin as [<- | []]; reflexivity); try contradiction;
    try (eapply IH; eassumption).
  - apply in_flat_map in Hin as [c [_ Hin]].
    destruct c; simpl in Hin;
      match type of Hin with
      | In _ (if ?b then _ else _) => destruct b
      end; simpl in Hin; try contradiction;
      destruct Hin as [<- | []]; reflexivity.
  - apply in_flat_map in Hin as [c [_ Hin]].
    destruct c as [value inclusive]; simpl in Hin.
    match type of Hin with
    | In _ (if ?b then _ else _) => destruct b
    end; simpl in Hin; try contradiction.
    destruct Hin as [<- | []]; reflexivity.
  - destruct (eqb b value); simpl in Hin; [contradiction|].
    destruct Hin as [<- | []]; reflexivity.
Qed.

Lemma job_shape_flat : Forall (fun kt => flat (snd kt) = true) job_shape.
Proof. unfold job_shape. repeat constructor. Qed.

Lemma has_key_output_absent (E : Env) (p : list string) (props : object)
    (key : string) (shape : list (string * ZodType)) :
  ~ In key (map fst shape) -> has_key key (output E p props shape) = false.
Proof.
  unfold output. induction shape as [|[k t] rest IH]; simpl; [reflexivity|].
  intros Hn. destruct (kept E p props (k, t)); simpl.
  - rewrite eqb_neq_false by (intros ->; apply Hn; now left).
    apply IH. intros Hin. apply Hn. now right.
  - apply IH. intros Hin. apply Hn. now right.
Qed.

(** A validated create payload agrees with the payload on every key of the
    schema. *)
Lemma jobSchema_output_get (E : Env) (props values : object) (key : string) :
  safeParse E jobSchema (Obj props) = Success (Obj values) ->
  In key job_keys ->
  get key values = get key props /\ has_key key values = has_key key props.
Proof.
  intros Hparse Hkey. apply jobSchema_success in Hparse as [Heq Hall].
  inversion Heq; subst values; clear Heq.
  apply in_map_iff in Hkey as [[k t] [Hk Hin]]. simpl in Hk. subst k.
  pose proof job_shape_flat as Hflat.
  rewrite Forall_forall in Hall, Hflat.
  specialize (Hall _ Hin). specialize (Hflat _ Hin).
  assert (Hval : field_value E [] props (key, t) = get key props)
    by (apply parse_flat_value; assumption).
  split.
  - rewrite (get_output E [] props key t job_shape job_keys_NoDup Hin).
    exact Hval.
  - rewrite (has_key_output E [] props key t job_shape job_keys_NoDup Hin).
    unfold kept. rewrite Hval. cbn [fst].
    destruct (has_key key props) eqn:Hhas; [apply orb_true_r|].
    now rewrite (get_has_key _ _ Hhas).
Qed.

(** X3: the creation schema strips what it does not name. The validated
    object of an accepted create payload has, on each of the fifteen keys of
    the schema, the payload's value (and the key exactly when the payload
    has it), and has no other key: a property outside the schema never
    reaches the insert call. *)
Theorem jobSchema_strips_unknown_keys (E : Env) (v validatedJob : js)
    (Hvalid : safeParse E jobSchema v = Success validatedJob) :
  exists props values,
    v = Obj props
    /\ validatedJob = Obj values
    /\ (forall key, In key job_keys ->
          get key values = get key props
          /\ has_key key values = has_key key props)
    /\ (forall key, ~ In key job_keys ->
          get key values = Undefined /\ has_key key values = false).
Proof.
  destruct (safeParse_object_input _ _ _ _ Hvalid) as [props ->].
  destruct (jobSchema_success _ _ _ Hvalid) as [Heq _].
  exists props, (output E [] props job_shape).
  split; [reflexivity|]. split; [exact Heq|]. subst validatedJob. split.
  - intros key Hkey. exact (jobSchema_output_get E _ _ key Hvalid Hkey).
  - intros key Hkey. split.
    + exact (get_output_absent E [] props key job_shape Hkey).
    + exact (has_key_output_absent E [] props key job_shape Hkey).
Qed.

Lemma jobSchema_strips_unknown_keys_witness :
  exists props values,
    Obj (("is_admin", Bool true) :: sample_job false) = Obj props
    /\ Obj (sample_job false) = Obj values
    /\ (forall key, In key job_keys ->
          get key values = get key props
          /\ has_key key values = has_key key props)
    /\ (forall key, ~ In key job_keys ->
          get key values = Undefined /\ has_key key values = false).
Proof.
  exact (jobSchema_strips_unknown_keys sample_env
           (Obj (("is_admin", Bool true) :: sample_job false))
           (Obj (sample_job false)) eq_refl).
Defined.

Section KeyConditions.
Variable E : Env.

Lemma accepts_string : accepts E (ZodString []) is_string.
Proof. intros p v. destruct v; simpl; split; congruence. Qed.

Lemma accepts_number : accepts E (ZodNumber []) is_number.
Proof. intros p v. destruct v; simpl; split; congruence. Qed.

Lemma accepts_boolean : accepts E ZodBoolean is_boolean.
Proof. intros p v. destruct v; simpl; split; congruence. Qed.

Lemma accepts_nonempty : accepts E (ZodString [s_min 1]) nonempty_string.
Proof.
  intros p v. destruct v as [| |b|n|s|l|o]; simpl; try (split; congruence).
  destruct s; simpl; split; congruence.
Qed.

Lemma accepts_email :
  accepts E (ZodString [s_email]) (string_where (emailRegex_test E)).
Proof.
  intros p v. destruct v as [| |b|n|s|l|o]; simpl; try (split; congruence).
  destruct (emailRegex_test E s); simpl; split; congruence.
Qed.

Lemma accepts_url :
  accepts E (ZodString [s_url]) (string_where (URL_parses E)).
Proof.
  intros p v. destruct v as [| |b|n|s|l|o]; simpl; try (split; congruence).
  destruct (URL_parses E s); simpl; split; congruence.
Qed.

Lemma accepts_nonnegative :
  accepts E (ZodNumber [n_min 0 true]) nonnegative_number.
Proof.
  intros p v. destruct v as [| |b|n|s|l|o]; simpl; try (split; congruence).
  destruct n as [q| |]; simpl; try (split; congruence).
  destruct (Qle_bool 0 q); simpl; split; congruence.
Qed.

Lemma accepts_optional (t : ZodType) (ok : js -> bool) :
  accepts E t ok -> accepts E (ZodOptional t) (absent_or ok).
Proof.
  intros H p v. destruct v; simpl; try apply H. split; reflexivity.
Qed.

Lemma job_conditions_match :
  Forall2 (fun kt kc => fst kt = fst kc /\ accepts E (snd kt) (snd kc))
    job_shape (job_conditions E).
Proof.
  unfold job_shape, job_conditions.
  repeat (apply Forall2_cons; [split; [reflexivity|]|]);
    try apply Forall2_nil;
    cbn [snd];
    auto using accepts_string, accepts_number, accepts_boolean,
      accepts_nonempty, accepts_email, accepts_url, accepts_nonnegative,
      accepts_optional.
Qed.

Lemma conditions_decide (props : object)
    (shape : list (string * ZodType)) (conds : list (string * (js -> bool))) :
  Forall2 (fun kt kc => fst kt = fst kc /\ accepts E (snd kt) (snd kc))
    shape conds ->
  flat_map (field_issues E [] props) shape = []
  <-> forallb (fun kc => snd kc (get (fst kc) props)) conds = true.
Proof.
  induction 1 as [|kt kc shape conds [Hk Hok] _ IH]; simpl.
  - split; reflexivity.
  - rewrite andb_true_iff, <- IH, <- Hk, <- (Hok ([] ++ [fst kt])).
    unfold field_issues. split.
    + intros H. now apply app_eq_nil in H.
    + intros [H1 H2]. now rewrite H1, H2.
Qed.

End KeyConditions.

(** X4: the creation schema accepts a payload exactly when it is an object
    in which [id] is absent or a number; [slug], [title], [type],
    [location_type] and [company_name] are non-empty strings; [location] and
    [description] are absent or strings; [salary] is a number that is not
    negative; [application_email] is absent or a string the email pattern
    matches; [application_url] and [company_logo_url] are absent or strings
    the URL constructor accepts; [approved] is a boolean; and [created_at]
    and [updated_at] are strings. A [null] in an optional key is refused. *)
Theorem jobSchema_accepts_iff (E : Env) (v : js) :
  (exists validatedJob, safeParse E jobSchema v = Success validatedJob)
  <-> (exists props, v = Obj props /\ job_valid E props = true).
Proof.
  unfold job_valid. split.
  - intros [d Hparse].
    destruct (safeParse_object_input _ _ _ _ Hparse) as [props ->].
    exists props. split; [reflexivity|].
    apply jobSchema_success in Hparse as [_ Hall].
    apply (conditions_decide E props _ _ (job_conditions_match E)).
    now apply flat_map_nil.
  - intros [props [-> Hok]].
    apply (conditions_decide E props _ _ (job_conditions_match E)) in Hok.
    rewrite jobSchema_unfold, safeParse_object, Hok. eauto.
Qed.

(** X5: the issues of a refused create payload are field-level. When the
    payload is an object, every issue carries the one-element path of a key
    of the schema; when it is not an object, there is a single issue, of
    code [invalid_type] with the empty path. *)
Theorem jobSchema_issue_paths (E : Env) (v : js) (errors : list ZodIssue)
    (Hinvalid : safeParse E jobSchema v = Failure errors) :
  match v with
  | Obj _ =>
      Forall (fun i => exists key, In key job_keys /\ path i = [key]) errors
  | _ =>
      errors = [{| code := invalid_type t_object (getParsedType v);
                   path := [] |}]
  end.
Proof.
  destruct v as [| |b|n|s|l|props];
    try (inversion Hinvalid; reflexivity).
  rewrite jobSchema_unfold, safeParse_object in Hinvalid.
  assert (Hall : Forall (fun i => exists key, In key job_keys
                                              /\ path i = [key])
                   (flat_map (field_issues E [] props) job_shape)).
  { apply Forall_forall. intros i Hin.
    apply in_flat_map in Hin as [[k t] [Hkt Hin]].
    exists k. split; [now apply (in_map fst) in Hkt|].
    pose proof job_shape_flat as Hflat. rewrite Forall_forall in Hflat.
    exact (parse_flat_path E t _ _ i (Hflat _ Hkt) Hin). }
  destruct (flat_map (field_issues E [] props) job_shape);
    [discriminate|].
  inversion Hinvalid; subst. exact Hall.
Qed.

Lemma jobSchema_issue_paths_witness :
  Forall (fun i => exists key, In key job_keys /\ path i = [key])
    bad_job_errors.
Proof.
  exact (jobSchema_issue_paths sample_env (Obj bad_job) bad_job_errors
           eq_refl).
Defined.

(** X6: the approval schema either accepts a payload or reports exactly one
    issue: an [invalid_literal] at path [approved] when the payload is an
    object, an [invalid_type] at the empty path when it is not. *)
Theorem approveJobSchema_single_issue (E : Env) (v : js) :
  (exists d, safeParse E approveJobSchema v = Success d)
  \/ safeParse E approveJobSchema v
     = Failure
         [match v with
          | Obj _ => {| code := invalid_literal (Bool true);
                        path := ["approved"] |}
          | _ => {| code := invalid_type t_object (getParsedType v);
                    path := [] |}
          end].
Proof.
  destruct v as [| |b|n|s|l|props]; try (right; reflexivity).
  change approveJobSchema with (ZodObject [("approved", ZodLiteral true)]).
  rewrite safeParse_object. unfold field_issues.
  cbn [flat_map fst snd _parse app].
  destruct (get "approved" props) as [| |b|n|s|l|o];
    try (right; reflexivity).
  destruct b; [left; cbn; eauto | right; reflexivity].
Qed.

(** ** The outcomes of each handler *)

Lemma eq_id_int (n m : Z) (row : object) :
  get "id" row = int m -> eq_id n row = Z.eqb m n.
Proof.
  intros H. unfold eq_id. rewrite H. unfold int, number_int, inject_Z.
  cbn [Qnum Qden]. now rewrite Z.mod_1_r, Z.div_1_r.
Qed.

Lemma int_inj (n m : Z) : int n = int m -> n = m.
Proof. unfold int, inject_Z. now intros [= ->]. Qed.

Lemma get_new_row_column (n : Z) (values : object) (c : string) :
  In c columns -> get c (new_row n values) = nullable (get c values).
Proof.
  unfold columns. simpl.
  intros H. repeat (destruct H as [<- | H]; [reflexivity|]). contradiction.
Qed.

Lemma columns_are_keys (c : string) : In c columns -> In c job_keys.
Proof.
  unfold columns, job_keys, job_shape. simpl.
  intros H. repeat (destruct H as [<- | H]; [tauto|]). contradiction.
Qed.

Lemma POST_outcomes (E : Env) (req : RequestBody) (w : World) :
  (req = not_json
   /\ Jobs.POST E req w
      = (Ok {| status := 500;
               body := Obj [("error", Str "Failed to create job")] |}, w))
  \/ (exists v errors,
        req = json v
        /\ safeParse E jobSchema v = Failure errors
        /\ Jobs.POST E req w
           = (Ok {| status := 400;
                    body := Obj [("error", errors_js errors)] |}, w))
  \/ (exists v d message db',
        req = json v
        /\ safeParse E jobSchema v = Success d
        /\ Jobs.POST E req w
           = (Ok {| status := 500; body := Obj [("error", Str message)] |},
              after_call (c_insert d) w db')
        /\ rows db' = rows (db w))
  \/ (exists props values n db',
        req = json (Obj props)
        /\ safeParse E jobSchema (Obj props) = Success (Obj values)
        /\ Jobs.POST E req w
           = (Ok {| status := 201; body := Str "job created successfully" |},
              after_call (c_insert (Obj values)) w db')
        /\ hd None (net w) = None
        /\ rows db' = rows (db w) ++ [new_row n (json_object values)]
        /\ existsb (eq_id n) (rows (db w)) = false).
Proof.
  destruct req as [|v]; [left; split; reflexivity|]. right.
  unfold Jobs.POST, try_catch, bind, req_json, ret.
  destruct (safeParse E jobSchema v) as [d|errors] eqn:Hparse.
  2:{ left. exists v, errors. repeat split; auto. }
  right. destruct (hd None (net w)) as [message|] eqn:Hnet.
  { left. exists v, d, message, (db w).
    rewrite (query_failed E _ w message Hnet). repeat split; auto. }
  rewrite (query_delivered E _ w Hnet).
  destruct (run_insert_cases E d (db w))
    as [[message [Herr Hrows]] | [Herr [values [n [-> [Hrows Hfree]]]]]].
  - left. exists v, d, message, (snd (run E (c_insert d) (db w))).
    cbn [fst]. rewrite Herr. repeat split; auto.
  - right. destruct (safeParse_object_input _ _ _ _ Hparse) as [props ->].
    exists props, values, n, (snd (run E (c_insert (Obj values)) (db w))).
    cbn [fst]. rewrite Herr. repeat split; auto.
Qed.

Lemma PUT_outcomes (E : Env) (req : RequestBody) (id : string) (w : World) :
  (id = ""
   /\ JobById.PUT E req id w
      = (Ok {| status := 400;
               body := Obj [("error", Str "ID is required")] |}, w))
  \/ (id <> "" /\ req = not_json
      /\ JobById.PUT E req id w = (Thrown "SyntaxError", w))
  \/ (exists v errors,
        id <> "" /\ req = json v
        /\ safeParse E approveJobSchema v = Failure errors
        /\ JobById.PUT E req id w
           = (Ok {| status := 400;
                    body := Obj [("error", errors_js errors)] |}, w))
  \/ (id <> ""
      /\ (hd None (net w) <> None \/ find_row E id (db w) = None)
      /\ JobById.PUT E req id w = (Ok (not_found id), after_select id w))
  \/ (exists row,
        id <> "" /\ hd None (net w) = None
        /\ find_row E id (db w) = Some row
        /\ JobById.PUT E req id w
           = (Ok {| status := 500;
                    body := Obj [("error", Str "Failed to approve job")] |},
              after_update id w (db w)))
  \/ (exists row n,
        id <> "" /\ hd None (net w) = None /\ hd None (tl (net w)) = None
        /\ int_of_text E id = Some n
        /\ filter (eq_id n) (rows (db w)) = [row]
        /\ JobById.PUT E req id w
           = (Ok {| status := 200;
                    body := Obj [("message", Str "Job approved successfully");
                                 ("job",
                                  Obj (approved_view (clock w) row))] |},
              after_update id w (approve_rows n (clock w) (db w)))).
Proof.
  destruct (String.eqb id "") eqn:Hid.
  { left. apply String.eqb_eq in Hid. subst id. split; reflexivity. }
  right. apply String.eqb_neq in Hid.
  destruct req as [|v].
  { left. repeat split; auto. unfold JobById.PUT.
    now rewrite (eqb_neq_false _ _ Hid). }
  right.
  destruct (safeParse E approveJobSchema v) as [d|errors] eqn:Hparse.
  2:{ left. exists v, errors. repeat split; auto. now apply PUT_invalid. }
  right.
  destruct (hd None (net w)) as [message|] eqn:Hnet.
  { left. repeat split; auto; [left; discriminate|].
    now apply (PUT_select_failed E id v w Hid d message). }
  destruct (find_row E id (db w)) as [row|] eqn:Hrow.
  2:{ left. repeat split; auto. now apply (PUT_row_missing E id v w Hid d). }
  right. destruct (find_row_spec _ _ _ _ Hrow) as [n [Hn Hfilter]].
  destruct (hd None (tl (net w))) as [message|] eqn:Hnet2.
  - left. exists row. repeat split; auto.
    now apply (PUT_update_failed E id v w Hid d row message).
  - right. exists row, n. repeat split; auto.
    now apply (PUT_approved E id v w Hid d row n).
Qed.

Lemma DELETE_outcomes (E : Env) (id : string) (w : World) :
  ((hd None (net w) <> None \/ int_of_text E id = None)
   /\ JobById.DELETE E id w
      = (Ok {| status := 404; body := Obj [("error", Str "Job not found")] |},
         after_call (c_delete id) w (db w)))
  \/ (exists n,
        hd None (net w) = None /\ int_of_text E id = Some n
        /\ JobById.DELETE E id w
           = (Ok {| status := 200;
                    body := Obj [("message",
                                  Str "Job deleted successfully")] |},
              after_call (c_delete id) w
                {| rows := filter (fun row => negb (eq_id n row))
                             (rows (db w));
                   next_id := next_id (db w) |})).
Proof.
  unfold JobById.DELETE, bind.
  destruct (hd None (net w)) as [message|] eqn:Hnet.
  { left. rewrite (query_failed E _ w message Hnet).
    split; [left; discriminate | reflexivity]. }
  rewrite (query_delivered E _ w Hnet). unfold run.
  destruct (int_of_text E id) as [n|] eqn:Hn.
  - right. exists n. repeat split; reflexivity.
  - left. split; [now right | reflexivity].
Qed.

Lemma GET_found (E : Env) (id : string) (w : World) (row : object) :
  hd None (net w) = None -> find_row E id (db w) = Some row ->
  JobById.GET E id w
  = (Ok {| status := 200; body := Obj row |},
     after_call (c_select_single id) w (db w)).
Proof.
  intros Hnet Hrow. unfold JobById.GET, bind.
  rewrite (query_delivered E _ w Hnet), run_select_keeps.
  now rewrite (run_select_found _ _ _ _ Hrow).
Qed.

Lemma GET_missing (E : Env) (id : string) (w : World) :
  find_row E id (db w) = None ->
  JobById.GET E id w
  = (Ok {| status := 404; body := Obj [("error", Str "Job not found")] |},
     after_call (c_select_single id) w (db w)).
Proof.
  intros Hrow. unfold JobById.GET, bind.
  destruct (hd None (net w)) as [message|] eqn:Hnet.
  - now rewrite (query_failed E _ w message Hnet).
  - rewrite (query_delivered E _ w Hnet), run_select_keeps.
    destruct (run_select_missing _ _ _ Hrow) as [message Hrun].
    now rewrite Hrun.
Qed.

Lemma List_outcomes (E : Env) (w : World) :
  exists resp,
    Jobs.GET E w = (Ok resp, after_call c_select_all w (db w))
    /\ (status resp = 200%nat \/ status resp = 500%nat).
Proof.
  unfold Jobs.GET, try_catch, bind.
  destruct (hd None (net w)) as [message|] eqn:Hnet.
  - rewrite (query_failed E _ w message Hnet). eexists. split; [reflexivity|].
    now right.
  - rewrite (query_delivered E _ w Hnet). eexists. split; [reflexivity|].
    now left.
Qed.

Lemma GET_outcomes (E : Env) (id : string) (w : World) :
  exists resp,
    JobById.GET E id w = (Ok resp, after_call (c_select_single id) w (db w))
    /\ (status resp = 200%nat \/ status resp = 404%nat).
Proof.
  destruct (hd None (net w)) as [message|] eqn:Hnet.
  - unfold JobById.GET, bind. rewrite (query_failed E _ w message Hnet).
    eexists. split; [reflexivity | now right].
  - destruct (find_row E id (db w)) as [row|] eqn:Hrow.
    + rewrite (GET_found E id w row Hnet Hrow). eexists.
      split; [reflexivity | now left].
    + rewrite (GET_missing E id w Hrow). eexists.
      split; [reflexivity | now right].
Qed.

Lemma existsb_false_filter {A} (f : A -> bool) (l : list A) :
  existsb f l = false -> filter f l = [].
Proof.
  induction l as [|x l IH]; simpl; [reflexivity|].
  destruct (f x); simpl; [discriminate | exact IH].
Qed.

Lemma existsb_false_In {A} (f : A -> bool) (l : list A) (x : A) :
  existsb f l = false -> In x l -> f x = false.
Proof.
  intros H Hin. destruct (f x) eqn:Hx; [|reflexivity].
  assert (Ht : existsb f l = true) by (apply existsb_exists; eauto).
  congruence.
Qed.

(** ** Create *)

(** A column of the row an accepted create payload is stored as: what JSON
    makes of the payload's value, [Null] when the payload omits the key. *)
Lemma created_column (E : Env) (props values : object) (n : Z) (c : string) :
  safeParse E jobSchema (Obj props) = Success (Obj values) ->
  In c columns ->
  get c (new_row n (json_object values)) = nullable (to_json (get c props)).
Proof.
  intros Hparse Hc. rewrite (get_new_row_column n _ c Hc).
  rewrite get_json_object.
  - now rewrite (proj1 (jobSchema_output_get E props values c Hparse
                          (columns_are_keys c Hc))).
  - apply jobSchema_success in Hparse as [Heq _]. inversion Heq; subst.
    apply NoDup_output_keys. exact job_keys_NoDup.
Qed.

(** X7: a create request answered 201 has appended exactly one row to the
    table, under an identifier that no row had. Each column of that row holds
    the payload's value as the JSON sent to the store carries it (a number
    that is not finite, such as the one [1e999] parses to, is [null]), and
    [null] where the payload omits the key. The answer is the plain
    confirmation text: the row and its identifier are not sent back. *)
Theorem POST_created_row (E : Env) (req : RequestBody) (w w' : World)
    (resp : Response)
    (Hrun : Jobs.POST E req w = (Ok resp, w'))
    (Hcreated : status resp = 201%nat) :
  exists props row n,
    req = json (Obj props)
    /\ body resp = Str "job created successfully"
    /\ rows (db w') = rows (db w) ++ [row]
    /\ get "id" row = int n
    /\ (forall old, In old (rows (db w)) -> eq_id n old = false)
    /\ (forall c, In c columns ->
          get c row = nullable (to_json (get c props))).
Proof.
  destruct (POST_outcomes E req w)
    as [[_ H] | [[v [errors [_ [_ H]]]]
       | [[v [d [message [db' [_ [_ [H _]]]]]]]
         | [props [values [n [db' [-> [Hparse [H [_ [Hrows Hfree]]]]]]]]]]]];
    rewrite H in Hrun; inversion Hrun; subst; try discriminate.
  exists props, (new_row n (json_object values)), n.
  split; [reflexivity|]. split; [reflexivity|]. split; [exact Hrows|].
  split; [reflexivity|]. split.
  - intros old Hin. exact (existsb_false_In _ _ _ Hfree Hin).
  - intros c Hc. exact (created_column E props values n c Hparse Hc).
Qed.

Lemma POST_created_row_witness :
  exists props row n,
    json (Obj overflowing_salary_job) = json (Obj props)
    /\ body (NextResponse_json (Str "job created successfully") 201)
       = Str "job created successfully"
    /\ rows (db (snd (Jobs.POST sample_env
                        (json (Obj overflowing_salary_job)) one_job_world)))
       = rows (db one_job_world) ++ [row]
    /\ get "id" row = int n
    /\ (forall old, In old (rows (db one_job_world)) -> eq_id n old = false)
    /\ (forall c, In c columns ->
          get c row = nullable (to_json (get c props))).
Proof.
  exact (POST_created_row sample_env (json (Obj overflowing_salary_job))
           one_job_world
           (snd (Jobs.POST sample_env (json (Obj overflowing_salary_job))
                   one_job_world))
           (NextResponse_json (Str "job created successfully") 201)
           eq_refl eq_refl).
Defined.

(** X8: create, then get. After a create request answered 201, a get
    request for the identifier of the new row, its round trip delivered, is
    answered 200 with that row: on every column the payload's value as JSON
    carries it (a number that is not finite is [null]), and [null] where the
    payload omits the key. *)
Theorem create_then_get (E : Env) (req : RequestBody) (id : string) (n : Z)
    (w w' : World) (resp : Response)
    (Hrun : Jobs.POST E req w = (Ok resp, w'))
    (Hcreated : status resp = 201%nat)
    (Hnew : get "id" (last (rows (db w')) []) = int n)
    (Hid : int_of_text E id = Some n)
    (Hnet : hd None (net w') = None) :
  exists props row,
    req = json (Obj props)
    /\ row = last (rows (db w')) []
    /\ JobById.GET E id w'
       = (Ok {| status := 200; body := Obj row |},
          after_call (c_select_single id) w' (db w'))
    /\ (forall c, In c columns ->
          get c row = nullable (to_json (get c props))).
Proof.
  destruct (POST_outcomes E req w)
    as [[_ H] | [[v [errors [_ [_ H]]]]
       | [[v [d [message [db' [_ [_ [H _]]]]]]]
         | [props [values [m [db' [-> [Hparse [H [_ [Hrows Hfree]]]]]]]]]]]];
    rewrite H in Hrun; inversion Hrun; subst; try discriminate.
  cbn [db after_call] in *. rewrite Hrows, last_last in Hnew.
  apply int_inj in Hnew. subst m.
  exists props, (new_row n (json_object values)).
  split; [reflexivity|]. split; [now rewrite Hrows, last_last|]. split.
  - apply GET_found; [exact Hnet|].
    unfold find_row. cbn [db after_call]. rewrite Hid, Hrows, filter_app.
    rewrite (existsb_false_filter _ _ Hfree). cbn [filter app].
    rewrite (eq_id_int n n (new_row n (json_object values)) eq_refl),
      Z.eqb_refl.
    reflexivity.
  - intros c Hc. exact (created_column E props values n c Hparse Hc).
Qed.

Lemma create_then_get_witness :
  exists props row,
    json (Obj (sample_job false)) = json (Obj props)
    /\ row = last (rows (db one_job_world)) []
    /\ JobById.GET sample_env "1" one_job_world
       = (Ok {| status := 200; body := Obj row |},
          after_call (c_select_single "1") one_job_world (db one_job_world))
    /\ (forall c, In c columns ->
          get c row = nullable (to_json (get c props))).
Proof.
  exact (create_then_get sample_env (json (Obj (sample_job false))) "1" 1
           empty_world one_job_world
           (NextResponse_json (Str "job created successfully") 201)
           eq_refl eq_refl eq_refl eq_refl eq_refl).
Defined.

(** ** All five operations *)

(** X9: the statuses of the API. Whatever the request and the state of the
    store, list answers 200 or 500; create 201, 400 or 500; get 200 or 404;
    approve 200, 400, 404 or 500; delete 200 or 404. In particular get and
    delete never answer 500. *)
Theorem handle_statuses (E : Env) (op : Operation) (w w' : World)
    (resp : Response)
    (Hrun : handle E op w = (Ok resp, w')) :
  In (status resp) (statuses op).
Proof.
  destruct op as [|req|id|req id|id]; cbn [handle statuses] in *.
  - destruct (List_outcomes E w) as [r [H Hs]]. rewrite H in Hrun.
    inversion Hrun; subst. destruct Hs as [-> | ->]; simpl; tauto.
  - destruct (POST_outcomes E req w)
      as [[_ H] | [[v [errors [_ [_ H]]]]
         | [[v [d [message [db' [_ [_ [H _]]]]]]]
           | [props [values [n [db' [_ [_ [H _]]]]]]]]]];
      rewrite H in Hrun; inversion Hrun; subst; simpl; tauto.
  - destruct (GET_outcomes E id w) as [r [H Hs]]. rewrite H in Hrun.
    inversion Hrun; subst. destruct Hs as [-> | ->]; simpl; tauto.
  - destruct (PUT_outcomes E req id w)
      as [[_ H] | [[_ [_ H]] | [[v [errors [_ [_ [_ H]]]]]
         | [[_ [_ H]] | [[row [_ [_ [_ H]]]]
           | [row [n [_ [_ [_ [_ [_ H]]]]]]]]]]]];
      rewrite H in Hrun; inversion Hrun; subst; simpl; tauto.
  - destruct (DELETE_outcomes E id w) as [[_ H] | [n [_ [_ H]]]];
      rewrite H in Hrun; inversion Hrun; subst; simpl; tauto.
Qed.

Lemma handle_statuses_witness :
  In (status {| status := 404;
                body := Obj [("error", Str "Job not found")] |})
    (statuses (Get "42")).
Proof.
  exact (handle_statuses sample_env (Get "42") one_job_world
           (after_call (c_select_single "42") one_job_world
              (db one_job_world))
           _ eq_refl).
Defined.

(** X10: one handler lets an exception escape. An operation throws exactly
    when it is an approve request that has an identifier and a body that is
    not JSON ([req.json()] is awaited outside the handler's [try]); it then
    leaves the world as it was. Every other request is answered, a create
    request with a body that is not JSON included. *)
Theorem handle_throws_iff (E : Env) (op : Operation) (w : World) :
  ((exists e, fst (handle E op w) = Thrown e)
   <-> (exists id, op = Approve not_json id /\ id <> ""))
  /\ (forall e, fst (handle E op w) = Thrown e -> snd (handle E op w) = w).
Proof.
  destruct op as [|req|id|req id|id]; cbn [handle].
  - destruct (List_outcomes E w) as [r [H _]]. rewrite H.
    split; [split|]; [intros [e He] | intros [i [Hi _]] | intros e He];
      discriminate.
  - assert (Hok : exists r w', Jobs.POST E req w = (Ok r, w')).
    { destruct (POST_outcomes E req w)
        as [[_ H] | [[v [errors [_ [_ H]]]]
           | [[v [d [message [db' [_ [_ [H _]]]]]]]
             | [props [values [n [db' [_ [_ [H _]]]]]]]]]]; eauto. }
    destruct Hok as [r [w' H]]. rewrite H.
    split; [split|]; [intros [e He] | intros [i [Hi _]] | intros e He];
      discriminate.
  - destruct (GET_outcomes E id w) as [r [H _]]. rewrite H.
    split; [split|]; [intros [e He] | intros [i [Hi _]] | intros e He];
      discriminate.
  - destruct (PUT_outcomes E req id w)
      as [[Hid H] | [[Hid [Hreq H]] | [[v [errors [_ [Hreq [_ H]]]]]
         | [[Hid [Hcause H]] | [[row [_ [_ [_ H]]]]
           | [row [n [_ [_ [_ [_ [_ H]]]]]]]]]]]]; rewrite H; cbn [fst snd].
    + split; [split|]; [intros [e He] | intros [i [Hi Hne]] | intros e He];
        try discriminate. inversion Hi; subst. now elim Hne.
    + subst req. split; [split|]; eauto.
    + split; [split|]; [intros [e He] | intros [i [Hi _]] | intros e He];
        try discriminate. subst req. discriminate.
    + split; [split|]; [intros [e He] | | intros e He]; try discriminate.
      intros [i [Hi Hne]]. exfalso. inversion Hi; subst.
      unfold JobById.PUT in H. rewrite (eqb_neq_false _ _ Hne) in H.
      discriminate.
    + split; [split|]; [intros [e He] | | intros e He]; try discriminate.
      intros [i [Hi Hne]]. exfalso. inversion Hi; subst.
      unfold JobById.PUT in H. rewrite (eqb_neq_false _ _ Hne) in H.
      discriminate.
    + split; [split|]; [intros [e He] | | intros e He]; try discriminate.
      intros [i [Hi Hne]]. exfalso. inversion Hi; subst.
      unfold JobById.PUT in H. rewrite (eqb_neq_false _ _ Hne) in H.
      discriminate.
  - destruct (DELETE_outcomes E id w) as [[_ H] | [n [_ [_ H]]]]; rewrite H;
      (split; [split|]; [intros [e He] | intros [i [Hi _]] | intros e He];
       discriminate).
Qed.

(** X11: the store calls behind an answer. An operation only appends to the
    log of store calls. List, get and delete issue exactly one call. Create
    issues none when it answers 400; when it answers 201 its body passed the
    creation schema and the one call is the insert of the validated object;
    when it answers 500 the body was not JSON and no call was issued, or it
    passed the schema and the one call is that insert. Approve issues none
    when it answers 400, only the select-by-id when it answers 404, and the
    select-by-id followed by the update of [approved] and [updated_at] when
    it answers 200 or 500: it never writes before it has read the row, and
    never more than once. *)
Theorem handle_calls (E : Env) (op : Operation) (w w' : World)
    (resp : Response)
    (Hrun : handle E op w = (Ok resp, w')) :
  exists issued,
    calls w' = calls w ++ issued
    /\ issued_for E op (clock w) (status resp) issued.
Proof.
  destruct op as [|req|id|req id|id]; cbn [handle issued_for] in *.
  - destruct (List_outcomes E w) as [r [H _]]. rewrite H in Hrun.
    inversion Hrun; subst. eexists. split; reflexivity.
  - destruct (POST_outcomes E req w)
      as [[Hreq H] | [[v [errors [Hreq [_ H]]]]
         | [[v [d [message [db' [Hreq [Hparse [H _]]]]]]]
           | [props [values [n [db' [Hreq [Hparse [H _]]]]]]]]]];
      rewrite H in Hrun; inversion Hrun; subst; cbn [status Nat.eqb].
    + exists []. split; [now rewrite app_nil_r | now left].
    + exists []. split; [now rewrite app_nil_r | reflexivity].
    + eexists. split; [reflexivity | right; eauto].
    + eexists. split; [reflexivity | eauto].
  - destruct (GET_outcomes E id w) as [r [H _]]. rewrite H in Hrun.
    inversion Hrun; subst. eexists. split; reflexivity.
  - destruct (PUT_outcomes E req id w)
      as [[_ H] | [[_ [_ H]] | [[v [errors [_ [_ [_ H]]]]]
         | [[_ [_ H]] | [[row [_ [_ [_ H]]]]
           | [row [n [_ [_ [_ [_ [_ H]]]]]]]]]]]];
      rewrite H in Hrun; inversion Hrun; subst; cbn [status Nat.eqb not_found].
    + exists []. split; [now rewrite app_nil_r | reflexivity].
    + exists []. split; [now rewrite app_nil_r | reflexivity].
    + eexists. split; reflexivity.
    + eexists. split; [|reflexivity]. cbn [calls after_update].
      now rewrite <- app_assoc.
    + eexists. split; [|reflexivity]. cbn [calls after_update].
      now rewrite <- app_assoc.
  - destruct (DELETE_outcomes E id w) as [[_ H] | [n [_ [_ H]]]];
      rewrite H in Hrun; inversion Hrun; subst;
      (eexists; split; reflexivity).
Qed.

Lemma handle_calls_witness :
  exists issued,
    calls one_job_world = calls empty_world ++ issued
    /\ issued_for sample_env (Create (json (Obj (sample_job false))))
         (clock empty_world) 201 issued.
Proof.
  exact (handle_calls sample_env (Create (json (Obj (sample_job false))))
           empty_world one_job_world
           (NextResponse_json (Str "job created successfully") 201)
           eq_refl).
Defined.

(** ** Delete and approve, followed by get *)

Lemma filter_negb_filter {A} (f : A -> bool) (l : list A) :
  filter f (filter (fun x => negb (f x)) l) = [].
Proof.
  induction l as [|x l IH]; simpl; [reflexivity|].
  destruct (f x) eqn:Hx; simpl; [exact IH | now rewrite Hx].
Qed.

Lemma filter_idempotent {A} (f : A -> bool) (l : list A) :
  filter f (filter f l) = filter f l.
Proof.
  induction l as [|x l IH]; simpl; [reflexivity|].
  destruct (f x) eqn:Hx; simpl; [now rewrite Hx, IH | exact IH].
Qed.

(** X12: delete, then get. After a delete request answered 200 the table
    holds, in their order, exactly the rows the identifier did not select,
    and a get request for the same identifier is answered 404, whatever the
    fate of its round trip. *)
Theorem delete_then_get (E : Env) (id : string) (w w' : World)
    (resp : Response)
    (Hrun : JobById.DELETE E id w = (Ok resp, w'))
    (Hdeleted : status resp = 200%nat) :
  rows (db w') = filter (fun row => negb (matches E id row)) (rows (db w))
  /\ JobById.GET E id w'
     = (Ok {| status := 404; body := Obj [("error", Str "Job not found")] |},
        after_call (c_select_single id) w' (db w')).
Proof.
  destruct (DELETE_outcomes E id w) as [[_ H] | [n [_ [Hn H]]]];
    rewrite H in Hrun; inversion Hrun; subst; try discriminate.
  cbn [db after_call rows]. split.
  - apply filter_ext. intros row. unfold matches. now rewrite Hn.
  - apply GET_missing. unfold find_row. cbn [db after_call rows].
    now rewrite Hn, filter_negb_filter.
Qed.

Lemma delete_then_get_witness :
  rows (db (after_call (c_delete "1") one_job_world
              {| rows := []; next_id := 2 |}))
  = filter (fun row => negb (matches sample_env "1" row))
      (rows (db one_job_world))
  /\ JobById.GET sample_env "1"
       (after_call (c_delete "1") one_job_world
          {| rows := []; next_id := 2 |})
     = (Ok {| status := 404; body := Obj [("error", Str "Job not found")] |},
        after_call (c_select_single "1")
          (after_call (c_delete "1") one_job_world
             {| rows := []; next_id := 2 |})
          (db (after_call (c_delete "1") one_job_world
                 {| rows := []; next_id := 2 |}))).
Proof.
  exact (delete_then_get sample_env "1" one_job_world _
           {| status := 200;
              body := Obj [("message", Str "Job deleted successfully")] |}
           eq_refl eq_refl).
Defined.

(** X13: deleting twice. After a delete request answered 200, a second
    delete of the same identifier whose round trip is delivered is answered
    200 again, with the same confirmation, and leaves the table as the first
    one left it: the handler does not tell a removal from a no-op. *)
Theorem delete_twice (E : Env) (id : string) (w w' : World)
    (resp : Response)
    (Hrun : JobById.DELETE E id w = (Ok resp, w'))
    (Hdeleted : status resp = 200%nat)
    (Hnet : hd None (net w') = None) :
  JobById.DELETE E id w'
  = (Ok {| status := 200;
           body := Obj [("message", Str "Job deleted successfully")] |},
     after_call (c_delete id) w' (db w')).
Proof.
  destruct (DELETE_outcomes E id w) as [[_ H] | [n [_ [Hn H]]]];
    rewrite H in Hrun; inversion Hrun; subst; try discriminate.
  destruct (DELETE_outcomes E id
              (after_call (c_delete id) w
                 {| rows := filter (fun row => negb (eq_id n row))
                              (rows (db w));
                    next_id := next_id (db w) |}))
    as [[[Hfail | Hfail] _] | [m [_ [Hm H2]]]]; try congruence.
  rewrite H2. assert (m = n) by congruence. subst m.
  cbn [db after_call rows next_id].
  now rewrite (filter_idempotent (fun row => negb (eq_id n row))).
Qed.

Lemma delete_twice_witness :
  JobById.DELETE sample_env "42"
    (after_call (c_delete "42") one_job_world
       {| rows := [sample_row]; next_id := 2 |})
  = (Ok {| status := 200;
           body := Obj [("message", Str "Job deleted successfully")] |},
     after_call (c_delete "42")
       (after_call (c_delete "42") one_job_world
          {| rows := [sample_row]; next_id := 2 |})
       (db (after_call (c_delete "42") one_job_world
              {| rows := [sample_row]; next_id := 2 |}))).
Proof.
  exact (delete_twice sample_env "42" one_job_world _
           {| status := 200;
              body := Obj [("message", Str "Job deleted successfully")] |}
           eq_refl eq_refl eq_refl).
Defined.

(** X14: approve, then get. After an approve request answered 200, a get
    request for the same identifier, its round trip delivered, is answered
    200 with the very object the approve answer carried under [job]: without
    an intervening write the view built by the handler and the stored row
    coincide, with [approved] true and [updated_at] the time of the
    approval. *)
Theorem approve_then_get (E : Env) (req : RequestBody) (id : string)
    (w w' : World) (resp : Response)
    (Hrun : JobById.PUT E req id w = (Ok resp, w'))
    (Happroved : status resp = 200%nat)
    (Hnet : hd None (net w') = None) :
  exists job,
    body resp = Obj [("message", Str "Job approved successfully");
                     ("job", Obj job)]
    /\ JobById.GET E id w'
       = (Ok {| status := 200; body := Obj job |},
          after_call (c_select_single id) w' (db w'))
    /\ get "approved" job = Bool true
    /\ get "updated_at" job = Str (clock w).
Proof.
  destruct (PUT_outcomes E req id w)
    as [[_ H] | [[_ [_ H]] | [[v [errors [_ [_ [_ H]]]]]
       | [[_ [_ H]] | [[row [_ [_ [_ H]]]]
         | [row [n [_ [_ [_ [Hn [Hrow H]]]]]]]]]]]];
    rewrite H in Hrun; inversion Hrun; subst; try discriminate.
  exists (approved_view (clock w) row). split; [reflexivity|]. split.
  - apply GET_found; [exact Hnet|].
    unfold find_row. cbn [db after_update approve_rows rows].
    now rewrite Hn, filter_approve_rows, Hrow.
  - split; [apply approved_view_approved | apply approved_view_updated_at].
Qed.

Lemma approve_then_get_witness :
  exists job,
    body {| status := 200;
            body := Obj [("message", Str "Job approved successfully");
                         ("job",
                          Obj (approved_view (clock one_job_world)
                                 sample_row))] |}
    = Obj [("message", Str "Job approved successfully"); ("job", Obj job)]
    /\ JobById.GET sample_env "1"
         (after_update "1" one_job_world
            (approve_rows 1 (clock one_job_world) (db one_job_world)))
       = (Ok {| status := 200; body := Obj job |},
          after_call (c_select_single "1")
            (after_update "1" one_job_world
               (approve_rows 1 (clock one_job_world) (db one_job_world)))
            (db (after_update "1" one_job_world
                   (approve_rows 1 (clock one_job_world)
                      (db one_job_world)))))
    /\ get "approved" job = Bool true
    /\ get "updated_at" job = Str (clock one_job_world).
Proof.
  exact (approve_then_get sample_env
           (json (Obj [("approved", Bool true)])) "1" one_job_world _ _
           eq_refl eq_refl eq_refl).
Defined.

(** ** The lifecycle of [approved] *)

(** C1, as stated, fails: a create request that supplies [approved: true]
    passes the creation schema (its [approved] key is any boolean), and the
    job is stored approved although no approve operation took place. *)
Lemma POST_creates_approved_job :
  let run :=
    handle sample_env (Create (json (Obj (sample_job true)))) empty_world in
  rows (db empty_world) = []
  /\ fst run = Ok (NextResponse_json (Str "job created successfully") 201)
  /\ map (get "approved") (rows (db (snd run))) = [Bool true].
Proof. vm_compute. repeat split. Qed.

Lemma jobSchema_approved_boolean (E : Env) (props : object) (d : js) :
  safeParse E jobSchema (Obj props) = Success d ->
  exists b, get "approved" props = Bool b.
Proof.
  intros Hparse. apply jobSchema_success in Hparse as [_ Hall].
  rewrite Forall_forall in Hall.
  assert (Hin : In ("approved", ZodBoolean) job_shape)
    by (unfold job_shape; simpl; tauto).
  specialize (Hall _ Hin). unfold field_issues in Hall.
  cbn [fst snd _parse] in Hall.
  destruct (get "approved" props) as [| |b|x|s|l|o]; try discriminate.
  eauto.
Qed.

(** How one operation changes the rows of the table: not at all; or, for a
    create, by one row appended whose [approved] is the boolean of the
    payload; or, for an approve, by the rows its identifier selects becoming
    their approved view; or, for a delete, by the removal of the rows its
    identifier selects. *)
Lemma handle_rows (E : Env) (op : Operation) (w : World) :
  rows (db (snd (handle E op w))) = rows (db w)
  \/ (exists props row',
        op = Create (json (Obj props))
        /\ rows (db (snd (handle E op w))) = rows (db w) ++ [row']
        /\ (exists b, get "approved" props = Bool b)
        /\ get "approved" row' = get "approved" props)
  \/ (exists req id,
        op = Approve req id
        /\ rows (db (snd (handle E op w)))
           = map (fun row => if matches E id row
                             then approved_view (clock w) row else row)
               (rows (db w)))
  \/ (exists id,
        op = Delete id
        /\ rows (db (snd (handle E op w)))
           = filter (fun row => negb (matches E id row)) (rows (db w))).
Proof.
  destruct op as [|req|id|req id|id]; cbn [handle].
  - destruct (List_outcomes E w) as [r [H _]]. rewrite H. now left.
  - destruct (POST_outcomes E req w)
      as [[_ H] | [[v [errors [_ [_ H]]]]
         | [[v [d [message [db' [_ [_ [H Hrows]]]]]]]
           | [props [values [n [db' [-> [Hparse [H [_ [Hrows _]]]]]]]]]]]];
      rewrite H; cbn [snd db after_call]; auto.
    right. left. exists props, (new_row n (json_object values)).
    destruct (jobSchema_approved_boolean E props _ Hparse) as [b Hb].
    split; [reflexivity|]. split; [exact Hrows|]. split; [eauto|].
    rewrite (created_column E props values n "approved" Hparse)
      by (unfold columns; simpl; tauto).
    now rewrite Hb.
  - destruct (GET_outcomes E id w) as [r [H _]]. rewrite H. now left.
  - destruct (PUT_outcomes E req id w)
      as [[_ H] | [[_ [_ H]] | [[v [errors [_ [_ [_ H]]]]]
         | [[_ [_ H]] | [[row [_ [_ [_ H]]]]
           | [row [n [_ [_ [_ [Hn [_ H]]]]]]]]]]]];
      rewrite H; cbn [snd db after_select after_update]; auto.
    right. right. left. exists req, id. split; [reflexivity|].
    cbn [approve_rows rows]. apply map_ext. intros r.
    unfold matches. now rewrite Hn.
  - destruct (DELETE_outcomes E id w) as [[_ H] | [n [_ [Hn H]]]];
      rewrite H; cbn [snd db after_call]; auto.
    right. right. right. exists id. split; [reflexivity|].
    cbn [rows]. apply filter_ext. intros row. unfold matches.
    now rewrite Hn.
Qed.

(** C1, amended: the [approved] field of a stored job is changed by the
    approve operation only, which sets it to true, and no operation sets it
    back; create stores [approved] as the caller gives it. Precisely, one
    operation leaves the rows of the table as they were, or is a create that
    appends one row whose [approved] is the boolean of its payload, or is an
    approve that turns the rows its identifier selects into their approved
    view and keeps the others, or is a delete that removes the rows its
    identifier selects and keeps the others. Hence a row that is approved
    after an operation was in the table as it is, or is the approved view of
    a row the approve selected, or is the one row a create appended from a
    payload with [approved: true]; and a row that was approved is, unless a
    delete selected it, still in the table, as it was or as its approved
    view, and approved. *)
Theorem approved_lifecycle (E : Env) (op : Operation) (w : World) :
  let before := rows (db w) in
  let after := rows (db (snd (handle E op w))) in
  (after = before
   \/ (exists props row',
         op = Create (json (Obj props))
         /\ after = before ++ [row']
         /\ (exists b, get "approved" props = Bool b)
         /\ get "approved" row' = get "approved" props)
   \/ (exists req id,
         op = Approve req id
         /\ after = map (fun row => if matches E id row
                                    then approved_view (clock w) row
                                    else row) before)
   \/ (exists id,
         op = Delete id
         /\ after = filter (fun row => negb (matches E id row)) before))
  /\ (forall row',
        In row' after -> get "approved" row' = Bool true ->
        In row' before
        \/ (exists req id row,
              op = Approve req id /\ In row before
              /\ matches E id row = true
              /\ row' = approved_view (clock w) row)
        \/ (exists props,
              op = Create (json (Obj props))
              /\ get "approved" props = Bool true
              /\ after = before ++ [row']))
  /\ (forall row,
        In row before -> get "approved" row = Bool true ->
        (exists id, op = Delete id /\ matches E id row = true)
        \/ (exists row',
              In row' after
              /\ (row' = row \/ row' = approved_view (clock w) row)
              /\ get "id" row' = get "id" row
              /\ get "approved" row' = Bool true)).
Proof.
  intros before after. subst before after.
  pose proof (handle_rows E op w) as Hrows.
  remember (rows (db (snd (handle E op w)))) as after eqn:Hafter.
  clear Hafter.
  split; [exact Hrows|].
  destruct Hrows
    as [-> | [[props [new [-> [-> [[b Hb] Hnew]]]]]
       | [[req [id [-> ->]]] | [id [-> ->]]]]].
  - split.
    + intros row' Hin _. now left.
    + intros row Hin Happroved. right. exists row. auto.
  - split.
    + intros row' Hin Happroved.
      apply in_app_or in Hin as [Hin | [<- | []]]; [now left|].
      right. right. exists props. split; [reflexivity|].
      split; [congruence | reflexivity].
    + intros row Hin Happroved. right. exists row.
      split; [apply in_or_app; now left | auto].
  - split.
    + intros row' Hin Happroved.
      apply in_map_iff in Hin as [old [Hold Hin]].
      destruct (matches E id old) eqn:Hmatch.
      * right. left. exists req, id, old. auto.
      * left. now subst row'.
    + intros row Hin Happroved. right.
      exists (if matches E id row then approved_view (clock w) row
              else row).
      split;
        [apply (in_map (fun r => if matches E id r
                                 then approved_view (clock w) r else r));
         exact Hin|].
      destruct (matches E id row).
      * split; [now right|].
        split; [now apply get_approved_view | apply approved_view_approved].
      * auto.
  - split.
    + intros row' Hin _. left. now apply filter_In in Hin as [Hin _].
    + intros row Hin Happroved.
      destruct (matches E id row) eqn:Hmatch.
      * left. eauto.
      * right. exists row. split; [|auto].
        apply filter_In. split; [exact Hin | now rewrite Hmatch].
Qed.
